(** * runpod | serverless | utils | rp_validator.py

    A shallow embedding of [validate] and of the part of the Python object
    model it touches, followed by the properties of the validator.

    Python dictionaries keep insertion order and the order of the collected
    messages depends on it, so a dictionary is an association list with
    first-match lookup.  [validate] works on two caller-owned objects
    ([raw_input], [schema]) and two local ones ([error_list],
    [validated_input]); they are the four fields of the [store] threaded by
    the monad [M].  An exception leaves the store as it was when it was
    raised: what [validate] wrote into the caller's [schema] stays written. *)

From Stdlib Require Import ZArith List String Ascii Bool Lia.
From Stdlib Require Import Floats.SpecFloat.
Import ListNotations.
Open Scope string_scope.

Set Warnings "-register-all".

(** ** Python values *)

(** Data values: what an input mapping holds and what [json.loads] returns.
    A Python [float] is an IEEE-754 binary64 number. *)
Inductive value : Type :=
| VNone
| VBool (b : bool)
| VInt (z : Z)
| VFloat (f : spec_float)
| VStr (s : string)
| VList (l : list value)
| VDict (d : list (string * value)).

(** The classes [type(v)] can return for a data value. *)
Inductive pytype : Type :=
| TStr | TInt | TFloat | TBool | TList | TDict | TNoneType.

Inductive exn : Type :=
| KeyError (key : string)
| TypeError
| OverflowError
| JSONDecodeError
| ValueError
| RecursionError.

Inductive outcome (A : Type) : Type :=
| Returns (a : A)
| Raises (e : exn).
Arguments Returns {A} a.
Arguments Raises {A} e.

Definition pytype_eqb (a b : pytype) : bool :=
  match a, b with
  | TStr, TStr | TInt, TInt | TFloat, TFloat | TBool, TBool
  | TList, TList | TDict, TDict | TNoneType, TNoneType => true
  | _, _ => false
  end.

(** [type(v)] *)
Definition type_of (v : value) : pytype :=
  match v with
  | VNone => TNoneType
  | VBool _ => TBool
  | VInt _ => TInt
  | VFloat _ => TFloat
  | VStr _ => TStr
  | VList _ => TList
  | VDict _ => TDict
  end.

(** [isinstance(v, t)] for a class [t]; [bool] is a subclass of [int]. *)
Definition isinstance (v : value) (t : pytype) : bool :=
  match v, t with
  | VBool _, TInt => true
  | _, _ => pytype_eqb (type_of v) t
  end.

(** [v is None] *)
Definition is_None (v : value) : bool :=
  match v with VNone => true | _ => false end.

(** Truth value of an object, as [if], [not] and [and] test it. *)
Definition truthy (v : value) : bool :=
  match v with
  | VNone => false
  | VBool b => b
  | VInt z => negb (Z.eqb z 0)
  | VFloat (S754_zero _) => false
  | VFloat _ => true
  | VStr s => negb (String.eqb s EmptyString)
  | VList l => match l with [] => false | _ => true end
  | VDict d => match d with [] => false | _ => true end
  end.

(** [str(t)] for a class, as an f-string prints it. *)
Definition class_repr (t : pytype) : string :=
  match t with
  | TStr => "<class 'str'>"
  | TInt => "<class 'int'>"
  | TFloat => "<class 'float'>"
  | TBool => "<class 'bool'>"
  | TList => "<class 'list'>"
  | TDict => "<class 'dict'>"
  | TNoneType => "<class 'NoneType'>"
  end.

(** [float(n)] for an [int]: the nearest binary64 number, ties to even;
    [OverflowError] when that is out of range. *)
Definition float_of_int (z : Z) : outcome spec_float :=
  match binary_normalize 53 1024 z 0 false with
  | S754_infinity _ => Raises OverflowError
  | f => Returns f
  end.

(** [float(v)]; [validate] calls it only under [type(v) in [int, float]]. *)
Definition float_ (v : value) : outcome spec_float :=
  match v with
  | VInt z => float_of_int z
  | VFloat f => Returns f
  | VBool b => Returns (binary_normalize 53 1024 (if b then 1 else 0) 0 false)
  | _ => Raises TypeError
  end.

(** [needle in hay] for two strings. *)
Fixpoint str_contains (needle hay : string) : bool :=
  if prefix needle hay then true
  else match hay with
       | EmptyString => false
       | String _ rest => str_contains needle rest
       end.

(** ** Dictionaries *)

Definition dict (V : Type) : Type := list (string * V).

Fixpoint lookup {V : Type} (k : string) (d : dict V) : option V :=
  match d with
  | [] => None
  | (k', v) :: rest => if String.eqb k k' then Some v else lookup k rest
  end.

Definition isSome {A : Type} (o : option A) : bool :=
  match o with Some _ => true | None => false end.

(** [k in d] *)
Definition contains {V : Type} (k : string) (d : dict V) : bool :=
  isSome (lookup k d).

(** [d[k] = v]: overwrite in place, or append a new key. *)
Fixpoint setitem {V : Type} (k : string) (v : V) (d : dict V) : dict V :=
  match d with
  | [] => [(k, v)]
  | (k', v') :: rest =>
      if String.eqb k k' then (k, v) :: rest else (k', v') :: setitem k v rest
  end.

Definition keys {V : Type} (d : dict V) : list string := map fst d.

(** No key occurs twice: what every Python dictionary satisfies. *)
Fixpoint distinct (ks : list string) : bool :=
  match ks with
  | [] => true
  | k :: rest => negb (existsb (String.eqb k) rest) && distinct rest
  end.

(** ** Schema entries *)

(** What sits under a rule's ['type'] key: a class, or some other object. *)
Inductive type_slot : Type :=
| TypeObj (t : pytype)
| NonType (v : value).

(** A rule dictionary, seen through the four keys [validate] reads.  The
    constraint is a callable; it returns an object or raises. *)
Record rules_dict : Type := mkRules {
  r_type : option type_slot;
  r_required : option value;
  r_default : option value;
  r_constraints : option (value -> outcome value)
}.

(** A schema entry is a rule dictionary, or a plain data value (a string
    that may encode a rule, or whatever [json.loads] made of one). *)
Inductive entry : Type :=
| Rules (r : rules_dict)
| Plain (v : value).

(** A dictionary of data values read as a rule dictionary: no class and no
    callable can be in it. *)
Definition rules_of_dict (d : dict value) : rules_dict :=
  {| r_type := option_map NonType (lookup "type" d);
     r_required := lookup "required" d;
     r_default := lookup "default" d;
     r_constraints :=
       option_map (fun _ _ => Raises TypeError) (lookup "constraints" d) |}.

Definition as_rules (e : entry) : option rules_dict :=
  match e with
  | Rules r => Some r
  | Plain (VDict d) => Some (rules_of_dict d)
  | Plain _ => None
  end.

(** [isinstance(rules, dict)] *)
Definition isinstance_dict (e : entry) : bool := isSome (as_rules e).

Definition is_str (name : string) (v : value) : bool :=
  match v with VStr s => String.eqb name s | _ => false end.

(** [name in rules]: key membership for a dictionary, substring test for a
    string, element test for a list, [TypeError] for anything else. *)
Definition member {A : Type} (field : rules_dict -> option A) (name : string)
    (e : entry) : outcome bool :=
  match as_rules e with
  | Some r => Returns (isSome (field r))
  | None =>
      match e with
      | Plain (VStr s) => Returns (str_contains name s)
      | Plain (VList l) => Returns (existsb (is_str name) l)
      | _ => Raises TypeError
      end
  end.

(** [rules[name]]: [KeyError] for a dictionary without the key, [TypeError]
    for a string, a list (string index) and every other non-mapping. *)
Definition subscript {A : Type} (field : rules_dict -> option A)
    (name : string) (e : entry) : outcome A :=
  match as_rules e with
  | Some r =>
      match field r with
      | Some a => Returns a
      | None => Raises (KeyError name)
      end
  | None => Raises TypeError
  end.

(** [isinstance(v, rules['type'])]: the second argument must be a class. *)
Definition isinstance_slot (v : value) (t : type_slot) : outcome bool :=
  match t with
  | TypeObj c => Returns (isinstance v c)
  | NonType _ => Raises TypeError
  end.

(** [rules['type'] is float] *)
Definition is_float_class (t : type_slot) : bool :=
  match t with TypeObj TFloat => true | _ => false end.

(** ** Error messages *)

Definition UNEXPECTED_INPUT_ERROR (key : string) : string :=
  "Unexpected input. " ++ key ++ " is not a valid input option.".
Definition MISSING_REQUIRED_ERROR (key : string) : string :=
  key ++ " is a required input.".
Definition MISSING_DEFAULT_ERROR (key : string) : string :=
  "Schema error, missing default value for " ++ key ++ ".".
Definition MISSING_TYPE_ERROR (key : string) : string :=
  "Schema error, missing type for " ++ key ++ ".".
Definition INVALID_TYPE_ERROR (key expected actual : string) : string :=
  key ++ " should be " ++ expected ++ " type, not " ++ actual ++ ".".
Definition CONSTRAINTS_ERROR (key : string) : string :=
  key ++ " does not meet the constraints.".
Definition SCHEMA_ERROR (key : string) : string :=
  "Schema error, " ++ key ++ " is not a dictionary.".

(** ** The store and its monad *)

Record store : Type := mkStore {
  raw_input : dict value;
  schema : dict entry;
  error_list : list string;
  validated_input : dict value
}.

Definition M (A : Type) : Type := store -> outcome A * store.

Definition ret {A : Type} (a : A) : M A := fun st => (Returns a, st).

Definition bind {A B : Type} (m : M A) (f : A -> M B) : M B :=
  fun st =>
    match m st with
    | (Returns a, st') => f a st'
    | (Raises e, st') => (Raises e, st')
    end.

Declare Scope py_scope.
Delimit Scope py_scope with py.
Notation "x <- m ;; k" := (bind m (fun x => k))
  (at level 61, m at next level, right associativity) : py_scope.
Notation "m ;; k" := (bind m (fun _ => k))
  (at level 61, right associativity) : py_scope.
Open Scope py_scope.

(** An expression that returns or raises without touching the store. *)
Definition lift {A : Type} (o : outcome A) : M A := fun st => (o, st).

Definition read {A : Type} (field : store -> A) : M A :=
  fun st => (Returns (field st), st).

(** [for x in xs: body(x)] *)
Fixpoint for_each {A : Type} (xs : list A) (body : A -> M unit) : M unit :=
  match xs with
  | [] => ret tt
  | x :: rest => body x ;; for_each rest body
  end.

(** [if c: body] *)
Definition when (c : bool) (body : M unit) : M unit :=
  if c then body else ret tt.

(** [a and b], the right operand evaluated only when the left one holds. *)
Definition andM (a b : M bool) : M bool :=
  x <- a ;; if x then b else ret false.
Notation "a 'and' b" := (andM a b)
  (at level 59, right associativity) : py_scope.

(** [not a] *)
Definition notM (a : M bool) : M bool := x <- a ;; ret (negb x).

(** [if c1: b1 elif ...] *)
Definition ifM (c : M bool) (b1 b2 : M unit) : M unit :=
  x <- c ;; if x then b1 else b2.

(** [error_list.append(message)] *)
Definition _add_error (message : string) : M unit :=
  fun st =>
    (Returns tt,
     mkStore (raw_input st) (schema st) (error_list st ++ [message])
       (validated_input st)).

(** [schema[key] = e] *)
Definition set_schema (key : string) (e : entry) : M unit :=
  fun st =>
    (Returns tt,
     mkStore (raw_input st) (setitem key e (schema st)) (error_list st)
       (validated_input st)).

(** [validated_input[key] = v] *)
Definition set_validated (key : string) (v : value) : M unit :=
  fun st =>
    (Returns tt,
     mkStore (raw_input st) (schema st) (error_list st)
       (setitem key v (validated_input st))).

(** [raw_input[key]] *)
Definition raw_item (key : string) : M value :=
  fun st =>
    match lookup key (raw_input st) with
    | Some v => (Returns v, st)
    | None => (Raises (KeyError key), st)
    end.

(** [key not in raw_input] *)
Definition key_absent (key : string) : M bool :=
  raw <- read raw_input ;; ret (negb (contains key raw)).

(** The value [validate] returns: a dictionary with string keys whose
    values are a mapping or a list of messages. *)
Inductive ret_field : Type :=
| FDict (d : dict value)
| FList (l : list string).

Definition validation_return : Type := dict ret_field.

Definition ValidatedInput (d : dict value) : validation_return :=
  [("validated_input", FDict d)].
Definition Errors (l : list string) : validation_return :=
  [("errors", FList l)].

(** ** validate *)

Section Validate.

(** [json.loads] on a string, from Python's standard library: the parsed
    value, or the exception it raises.  That is [JSONDecodeError] for text
    that is not a JSON document, and it can be another one: a plain
    [ValueError] for an integer literal over the digit limit, a
    [RecursionError] for a document nested too deep. *)
Variable json_loads : string -> outcome value.

(** [json.loads(rules)]: a [TypeError] for an argument that is not text. *)
Definition json_loads_ (e : entry) : outcome value :=
  match e with
  | Plain (VStr s) => json_loads s
  | _ => Raises TypeError
  end.

(** Lines 42-44: check for unexpected inputs. *)
Definition check_unexpected : M unit :=
  raw <- read raw_input ;;
  for_each (keys raw) (fun key =>
    sch <- read schema ;;
    when (negb (contains key sch))
      (_add_error (UNEXPECTED_INPUT_ERROR key))).

(** Lines 48-52, the body of the second loop.  Only [JSONDecodeError] is
    caught. *)
Definition normalize_entry (key : string) (rules : entry) : M unit :=
  when (negb (isinstance_dict rules))
    (match json_loads_ rules with
     | Returns v => set_schema key (Plain v)
     | Raises JSONDecodeError => _add_error (SCHEMA_ERROR key)
     | Raises e => lift (Raises e)
     end).

(** Lines 47-52.  The loop runs over [schema.items()] while it assigns to
    [schema[key]] for the key in hand: no key is added or removed, and the
    item of a key is read before it is overwritten, so the loop sees the
    items the dictionary had when it started. *)
Definition normalize_schema : M unit :=
  sch <- read schema ;;
  for_each sch (fun kr => normalize_entry (fst kr) (snd kr)).

(** [rules['required']], tested for truth *)
Definition required (rules : entry) : M bool :=
  v <- lift (subscript r_required "required" rules) ;; ret (truthy v).

(** ["default" not in rules] *)
Definition no_default (rules : entry) : M bool :=
  notM (lift (member r_default "default" rules)).

(** Lines 56-68, the body of the third loop. *)
Definition resolve_field (key : string) (rules : entry) : M unit :=
  ifM (notM (lift (member r_type "type" rules)))
    (_add_error (MISSING_TYPE_ERROR key))
    (ret tt) ;;
  ifM (notM (lift (member r_required "required" rules)))
    (_add_error (MISSING_REQUIRED_ERROR key))
  (ifM (required rules and key_absent key)
    (_add_error (MISSING_REQUIRED_ERROR key))
  (ifM (required rules and key_absent key and no_default rules)
    (_add_error (MISSING_DEFAULT_ERROR key))
  (ifM (notM (required rules) and key_absent key and no_default rules)
    (_add_error (MISSING_DEFAULT_ERROR key))
  (ifM (notM (required rules) and key_absent key)
    (* raw_input.get(key, rules['default']) *)
    (d <- lift (subscript r_default "default" rules) ;;
     raw <- read raw_input ;;
     set_validated key
       (match lookup key raw with Some v => v | None => d end))
    (ret tt))))).

(** Lines 55-68. *)
Definition resolve_defaults : M unit :=
  sch <- read schema ;;
  for_each sch (fun kr => resolve_field (fst kr) (snd kr)).

(** [type(raw_input[key]) in [int, float]] *)
Definition type_in_int_float (v : value) : bool :=
  existsb (pytype_eqb (type_of v)) [TInt; TFloat].

(** Lines 71-83, the body of the fourth loop.  Every read goes to
    [raw_input], the coerced value is written to [validated_input]. *)
Definition check_field (key : string) (rules : entry) : M unit :=
  (* Enforce floats to be floats. *)
  ifM ((t <- lift (subscript r_type "type" rules) ;;
        ret (is_float_class t))
       and (v <- raw_item key ;; ret (type_in_int_float v)))
    (v <- raw_item key ;;
     f <- lift (float_ v) ;;
     set_validated key (VFloat f))
    (ret tt) ;;
  (* Check for the correct type. *)
  ifM (notM (v <- raw_item key ;;
             t <- lift (subscript r_type "type" rules) ;;
             lift (isinstance_slot v t))
       and (v <- raw_item key ;; ret (negb (is_None v))))
    (t <- lift (subscript r_type "type" rules) ;;
     v <- raw_item key ;;
     match t with
     | TypeObj c =>
         _add_error
           (INVALID_TYPE_ERROR key (class_repr c) (class_repr (type_of v)))
     | NonType _ =>
         (* not reached: isinstance has raised for such a rule *)
         lift (Raises TypeError)
     end)
    (ret tt) ;;
  (* Check lambda constraints. *)
  ifM (lift (member r_constraints "constraints" rules))
    (c <- lift (subscript r_constraints "constraints" rules) ;;
     v <- raw_item key ;;
     ifM (notM (b <- lift (c v) ;; ret (truthy b)))
       (_add_error (CONSTRAINTS_ERROR key))
       (ret tt))
    (ret tt).

(** Lines 70-83. *)
Definition check_types : M unit :=
  sch <- read schema ;;
  for_each sch (fun kr => check_field (fst kr) (snd kr)).

(** Lines 85-89. *)
Definition aggregate : M validation_return :=
  validated <- read validated_input ;;
  errors <- read error_list ;;
  let validation_return := ValidatedInput validated in
  let validation_return :=
    match errors with
    | [] => validation_return
    | _ :: _ => Errors errors
    end in
  ret validation_return.

(** Lines 38-89 on a store. *)
Definition validate_body : M validation_return :=
  check_unexpected ;;
  normalize_schema ;;
  resolve_defaults ;;
  check_types ;;
  aggregate.

(** Lines 38-39: [error_list] is a fresh list and [validated_input] a copy
    of [raw_input]; both arguments are the caller's objects. *)
Definition enter (raw_input : dict value) (schema : dict entry) : store :=
  mkStore raw_input schema [] raw_input.

(** [validate(raw_input, schema)]: what it returns or raises, and the
    store it leaves, whose [raw_input] and [schema] are the caller's
    objects after the call. *)
Definition validate (raw_input : dict value) (schema : dict entry)
  : outcome validation_return * store :=
  validate_body (enter raw_input schema).

End Validate.

(** ** Sample objects *)

(** ["1" * 5000], an integer literal over the limit of 4300 digits that
    Python puts on the conversion of text to [int]. *)
Definition long_integer : string :=
  String.concat EmptyString (repeat "1" 5000).

(** A fragment of [json.loads], enough to run the examples: the documents
    it knows are decoded as Python decodes them, an integer literal of
    5000 digits raises [ValueError] as Python's does, and every other
    string is taken as undecodable. *)
Definition json_loads_sample (s : string) : outcome value :=
  if String.eqb s "{}" then Returns (VDict [])
  else if String.eqb s "[]" then Returns (VList [])
  else if String.eqb s "18" then Returns (VInt 18)
  else if String.eqb s long_integer then Raises ValueError
  else Raises JSONDecodeError.

(** [{"type": t, "required": req}] with an optional default and constraint *)
Definition rule (t : pytype) (req : bool) (default : option value)
    (constraints : option (value -> outcome value)) : entry :=
  Rules (mkRules (Some (TypeObj t)) (Some (VBool req)) default constraints).

(** [lambda v: len(v) > 0] *)
Definition nonempty (v : value) : outcome value :=
  match v with
  | VStr s => Returns (VBool (Nat.ltb 0 (String.length s)))
  | VList l => Returns (VBool (Nat.ltb 0 (List.length l)))
  | VDict d => Returns (VBool (Nat.ltb 0 (List.length d)))
  | _ => Raises TypeError
  end.

(** [lambda v: v is not None] *)
Definition is_not_None (v : value) : outcome value :=
  Returns (VBool (negb (is_None v))).

(** [lambda v: isinstance(v, float)] *)
Definition is_a_float (v : value) : outcome value :=
  Returns (VBool (isinstance v TFloat)).

(** [5.0] *)
Definition float_5 : spec_float := S754_finite false 5629499534213120 (-50).

(** The schemas of the scenarios. *)
Definition age_required : dict entry := [("age", rule TInt true None None)].
Definition age_optional : dict entry :=
  [("age", rule TInt false (Some (VInt 18)) None)].
Definition score_required : dict entry :=
  [("score", rule TFloat true None None)].
Definition score_optional : dict entry :=
  [("score", rule TFloat false (Some (VFloat float_5)) None)].
Definition score_is_float : dict entry :=
  [("score", rule TFloat true None (Some is_a_float))].
Definition name_nonempty : dict entry :=
  [("name", rule TStr true None (Some nonempty))].
Definition name_not_None : dict entry :=
  [("name", rule TStr true None (Some is_not_None))].
Definition age_and_name : dict entry :=
  [("age", rule TInt true None None);
   ("name", rule TStr true None (Some nonempty))].

(** A schema whose first entry is a number and whose second is text. *)
Definition number_then_text : dict entry :=
  [("a", Plain (VInt 5)); ("b", Plain (VStr "{}"))].

(** A schema whose first entry is text on which [json.loads] raises
    [ValueError] and whose second is text that it decodes. *)
Definition long_integer_then_text : dict entry :=
  [("a", Plain (VStr long_integer)); ("b", Plain (VStr "{}"))].

(** A schema with a rule dictionary, then text, then a number. *)
Definition rule_text_number : dict entry :=
  [("age", rule TInt true None None);
   ("b", Plain (VStr "{}"));
   ("c", Plain (VInt 5))].

(** ** What a call leaves unchanged *)

(** [R] relates every store to the store [m] leaves from it, whether [m]
    returns or raises. *)
Definition frame {A : Type} (R : store -> store -> Prop) (m : M A) : Prop :=
  forall st, R st (snd (m st)).

Definition raw_kept (st st' : store) : Prop :=
  raw_input st' = raw_input st.

Definition schema_kept (st st' : store) : Prop :=
  schema st' = schema st.

Definition errors_grow (st st' : store) : Prop :=
  exists l, error_list st' = (error_list st ++ l)%list.

(** ** Inputs the validator accepts *)

(** The rule's constraint, when it has one, returns a true object on [v]. *)
Definition constraint_holds (r : rules_dict) (v : value) : bool :=
  match r_constraints r with
  | None => true
  | Some c =>
      match c v with
      | Returns b => truthy b
      | Raises _ => false
      end
  end.

(** The entry is a rule dictionary whose ['type'] is a class, the input has
    a value under [key] that is an instance of it or [None], and the
    constraint holds on that value. *)
Definition field_checked (raw : dict value) (key : string) (e : entry)
  : bool :=
  match e with
  | Rules r =>
      match r_type r, lookup key raw with
      | Some (TypeObj t), Some v =>
          (isinstance v t || is_None v) && constraint_holds r v
      | _, _ => false
      end
  | Plain _ => false
  end.

(** The same with [None] left out: the value is of the declared type. *)
Definition field_typed (raw : dict value) (key : string) (e : entry)
  : bool :=
  match e with
  | Rules r =>
      match r_type r, lookup key raw with
      | Some (TypeObj t), Some v => isinstance v t && constraint_holds r v
      | _, _ => false
      end
  | Plain _ => false
  end.

(** The entry is a rule dictionary with a ['required'] key. *)
Definition has_required (e : entry) : bool :=
  match e with
  | Rules r => isSome (r_required r)
  | Plain _ => false
  end.

(** No input key is outside the schema, and every schema field is present
    in the input and passes. *)
Definition accepts (raw : dict value) (sch : dict entry) : bool :=
  forallb (fun key => contains key sch) (keys raw) &&
  forallb (fun kr => field_checked raw (fst kr) (snd kr) &&
                     has_required (snd kr)) sch.

Definition is_plain (e : entry) : bool :=
  match e with Plain _ => true | Rules _ => false end.

(** The second loop goes on after the entry: it is a dictionary, or text
    on which [json.loads] returns or raises [JSONDecodeError], the one
    exception that line 51 catches. *)
Definition loop_goes_on (jl : string -> outcome value) (e : entry) : bool :=
  match e with
  | Rules _ | Plain (VDict _) => true
  | Plain (VStr s) =>
      match jl s with
      | Returns _ | Raises JSONDecodeError => true
      | Raises _ => false
      end
  | Plain _ => false
  end.

(** ** What a call returns *)

(** [float(v)] under the test of line 72 does not overflow: only an [int]
    supplied for a [float] field is converted with a possible
    [OverflowError]. *)
Definition coercion_runs (t : pytype) (v : value) : bool :=
  match t, v with
  | TFloat, VInt z =>
      match float_of_int z with
      | Returns _ => true
      | Raises _ => false
      end
  | _, _ => true
  end.

(** The rule's constraint, when it has one, returns on [v]. *)
Definition constraint_runs (r : rules_dict) (v : value) : bool :=
  match r_constraints r with
  | None => true
  | Some c =>
      match c v with
      | Returns _ => true
      | Raises _ => false
      end
  end.

(** The fourth loop gets through the entry: it is a rule dictionary with a
    class under ['type'], its key is in the input, and neither the float
    conversion nor the constraint raises on the value. *)
Definition field_runs (raw : dict value) (key : string) (e : entry) : bool :=
  match e with
  | Rules r =>
      match r_type r, lookup key raw with
      | Some (TypeObj t), Some v => coercion_runs t v && constraint_runs r v
      | _, _ => false
      end
  | Plain _ => false
  end.

Definition runs (raw : dict value) (sch : dict entry) : bool :=
  forallb (fun kr => field_runs raw (fst kr) (snd kr)) sch.

(** The messages of the first loop: the input keys outside the schema, in
    the order of the input. *)
Definition unexpected_messages (raw : dict value) (sch : dict entry)
  : list string :=
  map UNEXPECTED_INPUT_ERROR
    (filter (fun key => negb (contains key sch)) (keys raw)).

(** The message of the third loop for an entry whose key is in the input:
    none, or the one for a rule without a ['required'] key. *)
Definition marker_messages (key : string) (e : entry) : list string :=
  if has_required e then [] else [MISSING_REQUIRED_ERROR key].

(** The messages of the fourth loop for an entry: the type message for a
    value that is neither an instance of the class nor [None], then the
    constraint message for a value on which the constraint is false. *)
Definition field_messages (raw : dict value) (key : string) (e : entry)
  : list string :=
  match e with
  | Rules r =>
      match r_type r, lookup key raw with
      | Some (TypeObj t), Some v =>
          ((if negb (isinstance v t) && negb (is_None v)
            then [INVALID_TYPE_ERROR key (class_repr t)
                    (class_repr (type_of v))]
            else []) ++
           (if constraint_holds r v then [] else [CONSTRAINTS_ERROR key]))%list
      | _, _ => []
      end
  | Plain _ => []
  end.

(** All the messages of a call that goes through, loop after loop. *)
Definition messages (raw : dict value) (sch : dict entry) : list string :=
  (unexpected_messages raw sch ++
   flat_map (fun kr => marker_messages (fst kr) (snd kr)) sch ++
   flat_map (fun kr => field_messages raw (fst kr) (snd kr)) sch)%list.

(** [error_list.extend(l)] on a store *)
Definition add_errors (l : list string) (st : store) : store :=
  mkStore (raw_input st) (schema st) (error_list st ++ l)%list
    (validated_input st).

(** The schema with the ['default'] key removed from every rule. *)
Definition without_default (e : entry) : entry :=
  match e with
  | Rules r =>
      Rules (mkRules (r_type r) (r_required r) None (r_constraints r))
  | Plain v => Plain v
  end.

Definition without_defaults (sch : dict entry) : dict entry :=
  map (fun kr => (fst kr, without_default (snd kr))) sch.

(** The entry is a rule dictionary with a class under ['type']. *)
Definition has_class (e : entry) : bool :=
  match e with
  | Rules r => match r_type r with Some (TypeObj _) => true | _ => false end
  | Plain _ => false
  end.

(** The second loop does not write the entry: everything but text that
    [json.loads] decodes. *)
Definition left_alone (jl : string -> outcome value) (e : entry) : bool :=
  match e with
  | Plain (VStr s) =>
      match jl s with
      | Returns _ => false
      | Raises _ => true
      end
  | _ => true
  end.

(** [2 ** 1024], the first power of two that [float] does not convert. *)
Definition two_to_1024 : Z := 2 ^ 1024.

(** ** Dictionaries: lookup and assignment *)

Lemma lookup_setitem_same (V : Type) (k : string) (v : V) (d : dict V) :
  lookup k d = Some v -> setitem k v d = d.
Proof.
  induction d as [|[k' v'] rest IH]; simpl; [discriminate|].
  destruct (String.eqb_spec k k') as [->|Hne].
  - now intros [= ->].
  - intros H. now rewrite IH.
Qed.

Lemma lookup_setitem_other (V : Type) (k k' : string) (v : V) (d : dict V) :
  k <> k' -> lookup k (setitem k' v d) = lookup k d.
Proof.
  intros Hne. induction d as [|[k0 v0] rest IH]; simpl.
  - destruct (String.eqb_spec k k'); [contradiction|reflexivity].
  - destruct (String.eqb_spec k' k0) as [->|Hne']; simpl.
    + destruct (String.eqb_spec k k0); [contradiction|reflexivity].
    + now rewrite IH.
Qed.

Lemma lookup_setitem_here (V : Type) (k : string) (v : V) (d : dict V) :
  lookup k (setitem k v d) = Some v.
Proof.
  induction d as [|[k0 v0] rest IH]; simpl.
  - now rewrite String.eqb_refl.
  - destruct (String.eqb_spec k k0) as [->|Hne]; simpl.
    + now rewrite String.eqb_refl.
    + destruct (String.eqb_spec k k0); [contradiction|exact IH].
Qed.

(** ** Frame rules for the monad *)

Section Frame.

Variable R : store -> store -> Prop.
Hypothesis R_refl : forall st, R st st.
Hypothesis R_trans : forall a b c, R a b -> R b c -> R a c.

Lemma frame_ret (A : Type) (a : A) : frame R (ret a).
Proof. intros st. apply R_refl. Qed.

Lemma frame_lift (A : Type) (o : outcome A) : frame R (lift o).
Proof. intros st. apply R_refl. Qed.

Lemma frame_read (A : Type) (field : store -> A) : frame R (read field).
Proof. intros st. apply R_refl. Qed.

Lemma frame_raw_item (key : string) : frame R (raw_item key).
Proof.
  intros st. unfold raw_item.
  destruct (lookup key (raw_input st)); apply R_refl.
Qed.

Lemma frame_bind (A B : Type) (m : M A) (f : A -> M B) :
  frame R m -> (forall a, frame R (f a)) -> frame R (bind m f).
Proof.
  intros Hm Hf st. unfold bind. specialize (Hm st).
  destruct (m st) as [[a|e] st1]; simpl in *.
  - eapply R_trans; [exact Hm|apply Hf].
  - exact Hm.
Qed.

Lemma frame_for_each (A : Type) (xs : list A) (body : A -> M unit) :
  (forall x, frame R (body x)) -> frame R (for_each xs body).
Proof.
  intros Hb. induction xs as [|x rest IH]; simpl.
  - apply frame_ret.
  - apply frame_bind; [apply Hb|intros _; exact IH].
Qed.

Lemma frame_when (c : bool) (body : M unit) :
  frame R body -> frame R (when c body).
Proof. intros H. destruct c; simpl; [exact H|apply frame_ret]. Qed.

Lemma frame_notM (a : M bool) : frame R a -> frame R (notM a).
Proof. intros H. apply frame_bind; [exact H|intros x; apply frame_ret]. Qed.

Lemma frame_andM (a b : M bool) :
  frame R a -> frame R b -> frame R (a and b).
Proof.
  intros Ha Hb. apply frame_bind; [exact Ha|].
  intros [|]; [exact Hb|apply frame_ret].
Qed.

Lemma frame_ifM (c : M bool) (b1 b2 : M unit) :
  frame R c -> frame R b1 -> frame R b2 -> frame R (ifM c b1 b2).
Proof.
  intros Hc H1 H2. apply frame_bind; [exact Hc|].
  intros [|]; assumption.
Qed.

Lemma frame_key_absent (key : string) : frame R (key_absent key).
Proof.
  apply frame_bind; [apply frame_read|intros raw; apply frame_ret].
Qed.

Hypothesis R_add_error : forall msg, frame R (_add_error msg).
Hypothesis R_set_validated : forall k v, frame R (set_validated k v).

Ltac framing :=
  repeat first
    [ apply frame_ret | apply frame_lift | apply frame_read
    | apply frame_raw_item | apply frame_key_absent
    | apply R_add_error | apply R_set_validated
    | apply frame_when | apply frame_notM | apply frame_andM
    | apply frame_ifM | apply frame_for_each | apply frame_bind
    | match goal with |- forall _, _ => intro end ].

Variable json_loads : string -> outcome value.

Lemma frame_check_unexpected : frame R check_unexpected.
Proof. unfold check_unexpected. framing. Qed.

Lemma frame_resolve_field (key : string) (rules : entry) :
  frame R (resolve_field key rules).
Proof. unfold resolve_field, required, no_default. framing. Qed.

Lemma frame_resolve_defaults : frame R resolve_defaults.
Proof.
  apply frame_bind; [apply frame_read|intros sch].
  apply frame_for_each. intros kr. apply frame_resolve_field.
Qed.

Lemma frame_check_field (key : string) (rules : entry) :
  frame R (check_field key rules).
Proof.
  unfold check_field. framing.
  all: match goal with
       | |- frame _ (match ?t with _ => _ end) => destruct t
       end; framing.
Qed.

Lemma frame_check_types : frame R check_types.
Proof.
  apply frame_bind; [apply frame_read|intros sch].
  apply frame_for_each. intros kr. apply frame_check_field.
Qed.

Lemma frame_aggregate : frame R aggregate.
Proof. unfold aggregate. framing. Qed.

Hypothesis R_set_schema : forall k e, frame R (set_schema k e).

Lemma frame_normalize_entry (key : string) (rules : entry) :
  frame R (normalize_entry json_loads key rules).
Proof.
  unfold normalize_entry. apply frame_when.
  destruct (json_loads_ json_loads rules) as [v|[]]; framing.
  apply R_set_schema.
Qed.

Lemma frame_normalize_schema : frame R (normalize_schema json_loads).
Proof.
  apply frame_bind; [apply frame_read|intros sch].
  apply frame_for_each. intros kr. apply frame_normalize_entry.
Qed.

Lemma frame_validate_body : frame R (validate_body json_loads).
Proof.
  unfold validate_body.
  repeat (apply frame_bind; [|intros _]).
  - apply frame_check_unexpected.
  - apply frame_normalize_schema.
  - apply frame_resolve_defaults.
  - apply frame_check_types.
  - apply frame_aggregate.
Qed.

End Frame.

(** ** Running the monad *)

Ltac run :=
  unfold resolve_field, check_field, normalize_entry, json_loads_,
    ifM, notM, andM, when, required, no_default, key_absent,
    bind, lift, read, ret, raw_item, member, subscript, contains,
    isinstance_slot, isinstance_dict, _add_error, set_validated, set_schema,
    type_in_int_float, as_rules, rules_of_dict, option_map,
    field_checked, field_typed, has_required, constraint_holds in *.

(** Case analysis on the innermost scrutinee that blocks evaluation. *)
Ltac break :=
  match goal with
  | |- context [match ?x with _ => _ end] =>
      lazymatch x with
      | context [match _ with _ => _ end] => fail
      | _ => destruct x eqn:?
      end
  | H : context [match ?x with _ => _ end] |- _ =>
      lazymatch x with
      | context [match _ with _ => _ end] => fail
      | _ => destruct x eqn:?
      end
  end.

Ltac use_eqs :=
  repeat match goal with
         | H : ?f ?x = _ |- context [?f ?x] => rewrite H
         | H : ?f ?x = _, H' : context [?f ?x] |- _ =>
             lazymatch type of H' with
             | f x = _ => fail
             | _ => rewrite H in H'
             end
         | H : Some _ = Some _ |- _ => inversion H; clear H; subst
         end.

Ltac crunch := repeat (cbn in *; subst; try congruence; use_eqs; try break).

Lemma store_eta (st : store) :
  mkStore (raw_input st) (schema st) (error_list st) (validated_input st)
  = st.
Proof. now destruct st. Qed.

Lemma snoc_not_nil (A : Type) (l : list A) (x : A) : (l ++ [x])%list <> [].
Proof. destruct l; discriminate. Qed.

Lemma not_is_None (v : value) : negb (is_None v) = false -> v = VNone.
Proof. destruct v; try discriminate; reflexivity. Qed.

(** A completed run that leaves no message has added none on the way. *)
Ltac no_errors :=
  match goal with
  | H : (Returns _, _) = (Returns _, ?st'), E : error_list ?st' = [] |- _ =>
      injection H as <-; cbn in E;
      try (exfalso; revert E; apply snoc_not_nil)
  end.

Lemma for_each_cons_inv (A : Type) (x : A) (xs : list A) (body : A -> M unit)
    (st st2 : store) :
  for_each (x :: xs) body st = (Returns tt, st2) ->
  exists st1,
    body x st = (Returns tt, st1) /\ for_each xs body st1 = (Returns tt, st2).
Proof.
  simpl. unfold bind. destruct (body x st) as [[[]|e] st1]; [|discriminate].
  intros H. now exists st1.
Qed.

Lemma for_each_fixed (A : Type) (xs : list A) (body : A -> M unit)
    (st : store) :
  (forall x, In x xs -> body x st = (Returns tt, st)) ->
  for_each xs body st = (Returns tt, st).
Proof.
  induction xs as [|x rest IH]; intros H; simpl; [reflexivity|].
  unfold bind. rewrite (H x (or_introl eq_refl)).
  apply IH. intros y Hy. apply H. now right.
Qed.

Lemma for_each_app (A : Type) (xs ys : list A) (body : A -> M unit)
    (st : store) :
  for_each (xs ++ ys) body st
  = (for_each xs body ;; for_each ys body) st.
Proof.
  revert st. induction xs as [|x rest IH]; intros st; simpl.
  - reflexivity.
  - unfold bind in *. destruct (body x st) as [[[]|e] st1]; [|reflexivity].
    apply IH.
Qed.

(** ** The three frames *)

Create HintDb kept.

Lemma raw_kept_refl st : raw_kept st st.
Proof. reflexivity. Qed.

Lemma raw_kept_trans a b c : raw_kept a b -> raw_kept b c -> raw_kept a c.
Proof. unfold raw_kept. congruence. Qed.

Lemma raw_kept_add_error msg : frame raw_kept (_add_error msg).
Proof. intros st. reflexivity. Qed.

Lemma raw_kept_set_validated k v : frame raw_kept (set_validated k v).
Proof. intros st. reflexivity. Qed.

Lemma raw_kept_set_schema k e : frame raw_kept (set_schema k e).
Proof. intros st. reflexivity. Qed.

Lemma schema_kept_refl st : schema_kept st st.
Proof. reflexivity. Qed.

Lemma schema_kept_trans a b c :
  schema_kept a b -> schema_kept b c -> schema_kept a c.
Proof. unfold schema_kept. congruence. Qed.

Lemma schema_kept_add_error msg : frame schema_kept (_add_error msg).
Proof. intros st. reflexivity. Qed.

Lemma schema_kept_set_validated k v : frame schema_kept (set_validated k v).
Proof. intros st. reflexivity. Qed.

Lemma errors_grow_refl st : errors_grow st st.
Proof. exists []. now rewrite app_nil_r. Qed.

Lemma errors_grow_trans a b c :
  errors_grow a b -> errors_grow b c -> errors_grow a c.
Proof.
  intros [l Hl] [l' Hl']. exists (l ++ l')%list.
  now rewrite Hl', Hl, app_assoc.
Qed.

Lemma errors_grow_add_error msg : frame errors_grow (_add_error msg).
Proof. intros st. now exists [msg]. Qed.

Lemma errors_grow_set_validated k v : frame errors_grow (set_validated k v).
Proof. intros st. exists []. simpl. now rewrite app_nil_r. Qed.

Lemma errors_grow_set_schema k e : frame errors_grow (set_schema k e).
Proof. intros st. exists []. simpl. now rewrite app_nil_r. Qed.

#[local] Hint Resolve raw_kept_refl raw_kept_trans raw_kept_add_error
  raw_kept_set_validated raw_kept_set_schema schema_kept_refl
  schema_kept_trans schema_kept_add_error schema_kept_set_validated
  errors_grow_refl errors_grow_trans errors_grow_add_error
  errors_grow_set_validated errors_grow_set_schema : kept.

Lemma errors_grow_nil st st' :
  errors_grow st st' -> error_list st' = [] -> error_list st = [].
Proof.
  intros [l Hl] H. rewrite H in Hl. symmetry in Hl.
  now apply app_eq_nil in Hl.
Qed.

(** [validate] leaves the caller's input as it found it. *)
Lemma validate_raw_input jl raw sch :
  raw_input (snd (validate jl raw sch)) = raw.
Proof.
  unfold validate.
  apply (@frame_validate_body raw_kept); eauto with kept.
Qed.

Lemma check_types_loop_grows xs :
  frame errors_grow (for_each xs (fun kr => check_field (fst kr) (snd kr))).
Proof.
  apply frame_for_each; eauto with kept.
  intros kr. apply frame_check_field; eauto with kept.
Qed.

(** ** The loop bodies on a field that passes *)

Lemma constraint_holds_spec r v :
  constraint_holds r v = true <->
  forall c, r_constraints r = Some c ->
            exists b, c v = Returns b /\ truthy b = true.
Proof.
  unfold constraint_holds. split.
  - intros H c Hc. rewrite Hc in H.
    destruct (c v) as [b|]; [now exists b|discriminate].
  - intros H. destruct (r_constraints r) as [c|]; [|reflexivity].
    destruct (H c eq_refl) as (b & -> & Hb). exact Hb.
Qed.

Lemma field_checked_spec raw key e :
  field_checked raw key e = true <->
  exists r t v,
    e = Rules r /\ r_type r = Some (TypeObj t) /\ lookup key raw = Some v /\
    (isinstance v t = true \/ v = VNone) /\ constraint_holds r v = true.
Proof.
  unfold field_checked. split.
  - destruct e as [r|]; [|discriminate].
    destruct (r_type r) as [[t|]|] eqn:Et; try discriminate.
    destruct (lookup key raw) as [v|] eqn:El; [|discriminate].
    intros [H1 H2]%andb_prop. exists r, t, v.
    do 3 (split; [first [reflexivity|assumption]|]).
    split; [|exact H2].
    apply orb_prop in H1 as [H1|H1]; [now left|right].
    destruct v; try discriminate; reflexivity.
  - intros (r & t & v & -> & -> & -> & Hi & ->).
    rewrite andb_true_r. destruct Hi as [->| ->]; [reflexivity|].
    apply orb_true_r.
Qed.

Lemma resolve_field_accepts key e st :
  field_checked (raw_input st) key e = true -> has_required e = true ->
  resolve_field key e st = (Returns tt, st).
Proof. intros H1 H2. run. crunch. Qed.

Lemma check_field_accepts key e st :
  field_checked (raw_input st) key e = true ->
  validated_input st = raw_input st ->
  check_field key e st = (Returns tt, st).
Proof.
  intros (r & t & v & -> & Ht & Hl & Hi & Hc)%field_checked_spec Hv.
  rewrite constraint_holds_spec in Hc.
  assert (Hset : mkStore (raw_input st) (schema st) (error_list st)
                   (setitem key v (validated_input st)) = st).
  { rewrite lookup_setitem_same by (now rewrite Hv). apply store_eta. }
  run.
  destruct (r_constraints r) as [c|] eqn:Ec;
    [destruct (Hc c eq_refl) as (b & Hb & Hb')|];
    (destruct Hi as [Hi| ->]; [destruct t, v; try discriminate Hi|]);
    crunch.
Qed.

(** ** The loop bodies, read backwards from a run without messages *)

Lemma check_field_inv key e st st' :
  check_field key e st = (Returns tt, st') -> error_list st' = [] ->
  field_checked (raw_input st) key e = true /\
  (validated_input st = raw_input st -> st' = st).
Proof.
  intros H Herr. rewrite field_checked_spec. run.
  destruct e as [r|pv]; [|crunch].
  crunch; no_errors.
  all: split;
    [ do 3 eexists; do 3 (split; [first [eassumption|reflexivity]|]); split;
      [ match goal with
        | H : negb (isinstance _ _) = false |- _ =>
            left; now apply negb_false_iff
        | H : negb (is_None _) = false |- _ =>
            right; now apply not_is_None
        end
      | unfold constraint_holds; use_eqs;
        try match goal with
            | H : negb (truthy _) = false |- _ =>
                now apply negb_false_iff in H
            end;
        match goal with
        | H : isSome ?x = false |- _ => destruct x; [discriminate|reflexivity]
        end ]
    | intros Hv; try reflexivity;
      match goal with
      | H : float_ ?v = Returns _ |- _ =>
          destruct v; cbn in *; try discriminate;
          injection H as <-;
          rewrite lookup_setitem_same by congruence; apply store_eta
      end ].
Qed.

Lemma resolve_field_inv key e st st' :
  resolve_field key e st = (Returns tt, st') -> error_list st' = [] ->
  field_checked (raw_input st) key e = true ->
  st' = st /\ has_required e = true.
Proof.
  intros H Herr (r & t & v & -> & Ht & Hl & _)%field_checked_spec.
  run. crunch; no_errors. all: split; reflexivity.
Qed.

(** ** The loops, read backwards from a run without messages *)

Lemma check_types_loop_inv xs st st' :
  for_each xs (fun kr => check_field (fst kr) (snd kr)) st
  = (Returns tt, st') ->
  error_list st' = [] ->
  forallb (fun kr => field_checked (raw_input st) (fst kr) (snd kr)) xs
  = true /\
  (validated_input st = raw_input st -> st' = st).
Proof.
  revert st. induction xs as [|[key e] rest IH]; intros st H Herr.
  - injection H as <-. now split.
  - apply for_each_cons_inv in H as (st1 & H1 & H2); simpl in H1.
    assert (Herr1 : error_list st1 = []).
    { eapply errors_grow_nil; [|exact Herr].
      pose proof (check_types_loop_grows rest st1) as G.
      now rewrite H2 in G. }
    assert (Hraw : raw_input st1 = raw_input st).
    { pose proof (@frame_check_field raw_kept raw_kept_refl raw_kept_trans
                    raw_kept_add_error raw_kept_set_validated key e st) as G.
      now rewrite H1 in G. }
    destruct (check_field_inv _ _ _ _ H1 Herr1) as [Hf Hst].
    destruct (IH _ H2 Herr) as [Hall Hst'].
    rewrite Hraw in Hall. simpl. rewrite Hf, Hall. split; [reflexivity|].
    intros Hv. specialize (Hst Hv). subst st1. now apply Hst'.
Qed.

Lemma resolve_loop_grows xs :
  frame errors_grow
    (for_each xs (fun kr => resolve_field (fst kr) (snd kr))).
Proof.
  apply frame_for_each; eauto with kept.
  intros kr. apply frame_resolve_field; eauto with kept.
Qed.

Lemma resolve_loop_inv xs st st' :
  for_each xs (fun kr => resolve_field (fst kr) (snd kr)) st
  = (Returns tt, st') ->
  error_list st' = [] ->
  forallb (fun kr => field_checked (raw_input st) (fst kr) (snd kr)) xs
  = true ->
  st' = st /\ forallb (fun kr => has_required (snd kr)) xs = true.
Proof.
  revert st. induction xs as [|[key e] rest IH]; intros st H Herr Hall.
  - injection H as <-. now split.
  - apply for_each_cons_inv in H as (st1 & H1 & H2); simpl in H1.
    simpl in Hall. apply andb_prop in Hall as [Hf Hall].
    assert (Herr1 : error_list st1 = []).
    { eapply errors_grow_nil; [|exact Herr].
      pose proof (resolve_loop_grows rest st1) as G.
      now rewrite H2 in G. }
    destruct (resolve_field_inv _ _ _ _ H1 Herr1 Hf) as [-> Hreq].
    destruct (IH _ H2 Herr Hall) as [-> Hreqs].
    simpl. now rewrite Hreq, Hreqs.
Qed.

Lemma check_unexpected_body_inv key st st' :
  (sch <- read schema ;;
   when (negb (contains key sch)) (_add_error (UNEXPECTED_INPUT_ERROR key)))
    st = (Returns tt, st') ->
  error_list st' = [] ->
  st' = st /\ contains key (schema st) = true.
Proof.
  unfold bind, read, when, _add_error.
  destruct (contains key (schema st)); simpl; intros H Herr.
  - injection H as <-. now split.
  - no_errors.
Qed.

Lemma check_unexpected_loop_inv ks st st' :
  for_each ks (fun key =>
    sch <- read schema ;;
    when (negb (contains key sch)) (_add_error (UNEXPECTED_INPUT_ERROR key)))
    st = (Returns tt, st') ->
  error_list st' = [] ->
  st' = st /\ forallb (fun key => contains key (schema st)) ks = true.
Proof.
  revert st. induction ks as [|key rest IH]; intros st H Herr.
  - injection H as <-. now split.
  - apply for_each_cons_inv in H as (st1 & H1 & H2).
    assert (Herr1 : error_list st1 = []).
    { eapply errors_grow_nil; [|exact Herr].
      assert (G : frame errors_grow
                (for_each rest (fun key =>
                   sch <- read schema ;;
                   when (negb (contains key sch))
                     (_add_error (UNEXPECTED_INPUT_ERROR key))))).
      { apply frame_for_each; eauto with kept. intros k.
        apply frame_bind; eauto with kept.
        - apply frame_read; eauto with kept.
        - intros sch. apply frame_when; eauto with kept. }
      specialize (G st1). now rewrite H2 in G. }
    destruct (check_unexpected_body_inv _ _ _ H1 Herr1) as [-> Hin].
    destruct (IH _ H2 Herr) as [-> Hall].
    simpl. now rewrite Hin, Hall.
Qed.

(** ** The second loop and the entries it writes *)

Lemma normalize_entry_schema jl key e st :
  let st' := snd (normalize_entry jl key e st) in
  schema st' = schema st \/
  exists v, schema st' = setitem key (Plain v) (schema st).
Proof.
  run. crunch; auto; right; eexists; reflexivity.
Qed.

Lemma setitem_plain key v (sch : dict entry) :
  existsb (fun kr => is_plain (snd kr)) (setitem key (Plain v) sch) = true.
Proof.
  induction sch as [|[k e] rest IH]; simpl; [reflexivity|].
  destruct (String.eqb key k); simpl; [reflexivity|].
  rewrite IH. apply orb_true_r.
Qed.

Lemma normalize_loop_schema jl xs st :
  let st' :=
    snd (for_each xs (fun kr => normalize_entry jl (fst kr) (snd kr)) st) in
  schema st' = schema st \/
  existsb (fun kr => is_plain (snd kr)) (schema st') = true.
Proof.
  revert st. induction xs as [|[key e] rest IH]; intros st; simpl.
  - now left.
  - unfold bind.
    pose proof (normalize_entry_schema jl key e st) as Hh. simpl in Hh.
    destruct (normalize_entry jl key e st) as [[[]|ex] st1]; simpl in *.
    + destruct (IH st1) as [Heq|Hp]; [|now right].
      rewrite Heq. destruct Hh as [Hh|[v Hh]]; [now left|right].
      rewrite Hh. apply setitem_plain.
    + destruct Hh as [Hh|[v Hh]]; [now left|right].
      rewrite Hh. apply setitem_plain.
Qed.

Lemma normalize_loop_rules jl xs st :
  forallb (fun kr => negb (is_plain (snd kr))) xs = true ->
  for_each xs (fun kr => normalize_entry jl (fst kr) (snd kr)) st
  = (Returns tt, st).
Proof.
  intros H. apply for_each_fixed. intros [k e] Hin.
  rewrite forallb_forall in H. specialize (H _ Hin). simpl in *.
  destruct e; [reflexivity|discriminate].
Qed.

Lemma field_checked_not_plain raw key e :
  field_checked raw key e = true -> is_plain e = false.
Proof. destruct e; [reflexivity|discriminate]. Qed.

(** ** Which calls succeed *)

Lemma bind_inv (A B : Type) (m : M A) (f : A -> M B) st b st' :
  bind m f st = (Returns b, st') ->
  exists a st1, m st = (Returns a, st1) /\ f a st1 = (Returns b, st').
Proof.
  unfold bind. destruct (m st) as [[a|e] st1]; [|discriminate].
  intros H. now exists a, st1.
Qed.

Lemma aggregate_inv st res st' :
  aggregate st = (Returns res, st') ->
  st' = st /\
  (error_list st = [] /\ res = ValidatedInput (validated_input st) \/
   error_list st <> [] /\ res = Errors (error_list st)).
Proof.
  unfold aggregate, bind, read, ret. simpl.
  destruct (error_list st) as [|m l]; intros [= <- <-]; split; auto.
  right. split; [discriminate|reflexivity].
Qed.

Lemma not_plain_of_checked raw xs :
  forallb (fun kr => field_checked raw (fst kr) (snd kr)) xs = true ->
  forallb (fun kr => negb (is_plain (snd kr))) xs = true /\
  existsb (fun kr : string * entry => is_plain (snd kr)) xs = false.
Proof.
  induction xs as [|[k e] rest IH]; simpl; [now split|].
  intros [H1 H2]%andb_prop. destruct (IH H2) as [-> ->].
  now rewrite (field_checked_not_plain _ _ _ H1).
Qed.

(** An accepted input goes through the four loops without a message, an
    exception or a write, and comes back as it is. *)
Theorem validate_accepts jl raw sch :
  accepts raw sch = true ->
  validate jl raw sch = (Returns (ValidatedInput raw), enter raw sch).
Proof.
  intros [Hkeys Hfields]%andb_prop.
  assert (Hchecked :
    forallb (fun kr => field_checked raw (fst kr) (snd kr)) sch = true).
  { rewrite forallb_forall in *. intros kr Hin.
    now apply Hfields, andb_prop in Hin. }
  unfold validate, validate_body.
  set (st := enter raw sch).
  assert (H1 : check_unexpected st = (Returns tt, st)).
  { unfold check_unexpected, bind at 1, read. simpl.
    apply for_each_fixed. intros key Hin.
    rewrite forallb_forall in Hkeys.
    unfold bind, read, when. simpl. now rewrite (Hkeys _ Hin). }
  assert (H2 : normalize_schema jl st = (Returns tt, st)).
  { unfold normalize_schema, bind, read. simpl.
    apply normalize_loop_rules. now apply not_plain_of_checked in Hchecked. }
  assert (H3 : resolve_defaults st = (Returns tt, st)).
  { unfold resolve_defaults, bind, read. simpl.
    apply for_each_fixed. intros kr Hin.
    rewrite forallb_forall in Hfields.
    apply Hfields, andb_prop in Hin as [Ha Hb].
    now apply resolve_field_accepts. }
  assert (H4 : check_types st = (Returns tt, st)).
  { unfold check_types, bind, read. simpl.
    apply for_each_fixed. intros kr Hin.
    rewrite forallb_forall in Hchecked.
    apply check_field_accepts; [now apply Hchecked|reflexivity]. }
  unfold bind. now rewrite H1, H2, H3, H4.
Qed.

(** Conversely, a call that returns a validated input was made on an
    accepted input. *)
Theorem validate_success_inv jl raw sch vi :
  fst (validate jl raw sch) = Returns (ValidatedInput vi) ->
  accepts raw sch = true.
Proof.
  unfold validate, validate_body.
  set (st0 := enter raw sch).
  destruct (bind _ _ st0) as [o st'] eqn:E. simpl. intros ->.
  apply bind_inv in E as ([] & st1 & E1 & E).
  apply bind_inv in E as ([] & st2 & E2 & E).
  apply bind_inv in E as ([] & st3 & E3 & E).
  apply bind_inv in E as ([] & st4 & E4 & E).
  apply aggregate_inv in E as [-> [[Herr4 Hret]|[_ Hret]]];
    [clear Hret|discriminate Hret].
  (* the fourth loop *)
  unfold check_types, bind, read in E4. simpl in E4.
  destruct (check_types_loop_inv _ _ _ E4 Herr4) as [Hchecked Hsame].
  assert (Herr3 : error_list st3 = []).
  { eapply errors_grow_nil; [|exact Herr4].
    pose proof (check_types_loop_grows (schema st3) st3) as G.
    now rewrite E4 in G. }
  (* the third loop *)
  unfold resolve_defaults, bind, read in E3. simpl in E3.
  assert (Hsch3 : schema st3 = schema st2).
  { assert (G : frame schema_kept
       (for_each (schema st2)
          (fun kr => resolve_field (fst kr) (snd kr)))).
    { apply frame_for_each; eauto with kept.
      intros kr. apply frame_resolve_field; eauto with kept. }
    specialize (G st2). now rewrite E3 in G. }
  assert (Hraw3 : raw_input st3 = raw_input st2).
  { assert (G : frame raw_kept
       (for_each (schema st2)
          (fun kr => resolve_field (fst kr) (snd kr)))).
    { apply frame_for_each; eauto with kept.
      intros kr. apply frame_resolve_field; eauto with kept. }
    specialize (G st2). now rewrite E3 in G. }
  rewrite Hsch3, Hraw3 in Hchecked.
  destruct (resolve_loop_inv _ _ _ E3 Herr3 Hchecked) as [-> Hreq].
  (* the second loop *)
  unfold normalize_schema, bind, read in E2. simpl in E2.
  pose proof (normalize_loop_schema jl (schema st1) st1) as Hn.
  simpl in Hn. rewrite E2 in Hn. simpl in Hn.
  destruct (not_plain_of_checked _ _ Hchecked) as [Hnp Hnp'].
  destruct Hn as [Hsch2|Hn]; [|congruence].
  rewrite Hsch2 in Hnp.
  rewrite (normalize_loop_rules jl _ st1 Hnp) in E2.
  injection E2 as <-.
  (* the first loop *)
  unfold check_unexpected, bind at 1, read in E1. simpl in E1.
  destruct (check_unexpected_loop_inv _ _ _ E1 Herr3) as [-> Hkeys].
  unfold accepts. subst st0. simpl in *. rewrite Hkeys. simpl.
  rewrite forallb_forall in *. intros kr Hin.
  now rewrite (Hchecked _ Hin), (Hreq _ Hin).
Qed.

(** ** What the second loop writes into the schema *)

Lemma check_unexpected_returns st :
  exists st1, check_unexpected st = (Returns tt, st1) /\
              schema st1 = schema st /\ raw_input st1 = raw_input st.
Proof.
  assert (Hret : forall ks st0, exists st1,
    for_each ks (fun key =>
      sch <- read schema ;;
      when (negb (contains key sch))
        (_add_error (UNEXPECTED_INPUT_ERROR key))) st0 = (Returns tt, st1)).
  { induction ks as [|k rest IH]; intros st0; simpl; [now eexists|].
    unfold bind at 1. unfold bind at 1, read, when, _add_error.
    destruct (negb (contains k (schema st0))); simpl; apply IH. }
  destruct (Hret (keys (raw_input st)) st) as [st1 H1].
  assert (E : check_unexpected st = (Returns tt, st1)).
  { unfold check_unexpected, bind at 1, read. exact H1. }
  exists st1. split; [exact E|].
  pose proof (@frame_check_unexpected schema_kept schema_kept_refl
                schema_kept_trans schema_kept_add_error st) as G.
  pose proof (@frame_check_unexpected raw_kept raw_kept_refl
                raw_kept_trans raw_kept_add_error st) as G'.
  rewrite E in G, G'. now split.
Qed.

Lemma normalize_loop_other jl key xs st :
  ~ In key (keys xs) ->
  lookup key
    (schema
       (snd (for_each xs (fun kr => normalize_entry jl (fst kr) (snd kr))
               st)))
  = lookup key (schema st).
Proof.
  revert st. induction xs as [|[k e] rest IH]; intros st Hnot; simpl.
  - reflexivity.
  - simpl in Hnot.
    assert (Hk : key <> k) by (intros ->; apply Hnot; now left).
    assert (Hrest : ~ In key (keys rest)) by (intros H; apply Hnot; now right).
    pose proof (normalize_entry_schema jl k e st) as Hh. simpl in Hh.
    assert (Hl : lookup key (schema (snd (normalize_entry jl k e st)))
                 = lookup key (schema st)).
    { destruct Hh as [->|[v ->]]; [reflexivity|].
      now apply lookup_setitem_other. }
    unfold bind.
    destruct (normalize_entry jl k e st) as [[[]|ex] st1]; simpl in *.
    + now rewrite IH.
    + exact Hl.
Qed.

Lemma normalize_loop_text jl xs st :
  forallb (fun kr => loop_goes_on jl (snd kr)) xs = true ->
  exists st',
    for_each xs (fun kr => normalize_entry jl (fst kr) (snd kr)) st
    = (Returns tt, st').
Proof.
  revert st. induction xs as [|[k e] rest IH]; intros st H; simpl.
  - now eexists.
  - simpl in H. apply andb_prop in H as [He Hrest].
    unfold bind.
    assert (Hret : exists st1, normalize_entry jl k e st = (Returns tt, st1)).
    { run. destruct e as [r|[]]; try discriminate He; crunch;
        eexists; reflexivity. }
    destruct Hret as [st1 ->]. now apply IH.
Qed.

Lemma distinct_middle (pre post : list string) (key : string) :
  distinct (pre ++ key :: post) = true ->
  ~ In key pre /\ ~ In key post.
Proof.
  induction pre as [|k rest IH]; simpl.
  - intros [H _]%andb_prop. split; [tauto|].
    intros Hin. apply negb_true_iff in H.
    assert (existsb (String.eqb key) post = true).
    { apply existsb_exists. exists key. split; [exact Hin|].
      apply String.eqb_refl. }
    congruence.
  - intros [H Hd]%andb_prop. destruct (IH Hd) as [H1 H2].
    split; [|exact H2]. intros [->|Hin]; [|now apply H1].
    apply negb_true_iff in H.
    assert (existsb (String.eqb key) (rest ++ key :: post) = true).
    { apply existsb_exists. exists key. split.
      - apply in_or_app. right. now left.
      - apply String.eqb_refl. }
    congruence.
Qed.

Lemma normalize_schema_writes jl pre key s v post st :
  schema st = (pre ++ (key, Plain (VStr s)) :: post)%list ->
  distinct (keys (schema st)) = true ->
  forallb (fun kr => loop_goes_on jl (snd kr)) pre = true ->
  jl s = Returns v ->
  lookup key (schema (snd (normalize_schema jl st))) = Some (Plain v).
Proof.
  intros Hsch Hd Hpre Hs.
  rewrite Hsch in Hd. unfold keys in Hd. rewrite map_app in Hd. simpl in Hd.
  apply distinct_middle in Hd as [Hnpre Hnpost].
  unfold normalize_schema, bind at 1, read. simpl.
  rewrite Hsch, for_each_app. unfold bind at 1.
  destruct (normalize_loop_text jl pre st Hpre) as [sta Ha].
  pose proof (normalize_loop_other jl key pre st Hnpre) as La.
  rewrite Ha in *. simpl in La.
  simpl. unfold bind at 1.
  unfold normalize_entry at 1. simpl. rewrite Hs. simpl.
  rewrite normalize_loop_other by exact Hnpost. simpl.
  apply lookup_setitem_here.
Qed.

(** ** A schema key the input lacks *)

Lemma keys_setitem (V : Type) (k : string) (v : V) (d : dict V) :
  In k (keys d) -> keys (setitem k v d) = keys d.
Proof.
  induction d as [|[k' v'] rest IH]; simpl; [tauto|].
  destruct (String.eqb_spec k k') as [->|Hne]; simpl; [reflexivity|].
  intros [H|H]; [congruence|]. now rewrite IH.
Qed.

Lemma normalize_loop_keys jl xs st :
  (forall kr, In kr xs -> In (fst kr) (keys (schema st))) ->
  keys (schema
          (snd (for_each xs (fun kr => normalize_entry jl (fst kr) (snd kr))
                  st)))
  = keys (schema st).
Proof.
  revert st. induction xs as [|[k e] rest IH]; intros st Hin; simpl.
  - reflexivity.
  - assert (Hk : In k (keys (schema st))).
    { apply (Hin (k, e)). now left. }
    pose proof (normalize_entry_schema jl k e st) as Hh. simpl in Hh.
    assert (Hkeys : keys (schema (snd (normalize_entry jl k e st)))
                    = keys (schema st)).
    { destruct Hh as [->|[v ->]]; [reflexivity|]. now apply keys_setitem. }
    unfold bind.
    destruct (normalize_entry jl k e st) as [[[]|ex] st1]; simpl in *.
    + rewrite IH; [exact Hkeys|].
      intros kr Hkr. rewrite Hkeys. apply Hin. now right.
    + exact Hkeys.
Qed.

Lemma check_field_absent key rules st :
  lookup key (raw_input st) = None ->
  exists e, fst (check_field key rules st) = Raises e.
Proof.
  intros H. run. crunch; eexists; reflexivity.
Qed.

Lemma check_types_loop_absent key xs st :
  In key (keys xs) -> lookup key (raw_input st) = None ->
  exists e,
    fst (for_each xs (fun kr => check_field (fst kr) (snd kr)) st)
    = Raises e.
Proof.
  revert st. induction xs as [|[k r] rest IH]; intros st Hin Hl.
  - destruct Hin.
  - simpl. unfold bind.
    pose proof (@frame_check_field raw_kept raw_kept_refl raw_kept_trans
                  raw_kept_add_error raw_kept_set_validated k r st) as G.
    destruct (check_field k r st) as [[[]|ex] st1] eqn:E; simpl.
    + destruct Hin as [Hk|Hin].
      * simpl in Hk. subst k.
        destruct (check_field_absent key r st Hl) as [e He].
        rewrite E in He. discriminate.
      * apply IH; [exact Hin|]. simpl in G. unfold raw_kept in G.
        now rewrite G.
    + now exists ex.
Qed.

Lemma bind_returns {A B : Type} {m : M A} (f : A -> M B) {st a st1} :
  m st = (Returns a, st1) -> bind m f st = f a st1.
Proof. unfold bind. now intros ->. Qed.

Lemma bind_raises {A B : Type} {m : M A} (f : A -> M B) {st e st1} :
  m st = (Raises e, st1) -> bind m f st = (Raises e, st1).
Proof. unfold bind. now intros ->. Qed.

Lemma normalize_schema_keys jl st :
  keys (schema (snd (normalize_schema jl st))) = keys (schema st).
Proof.
  unfold normalize_schema, bind at 1, read.
  apply normalize_loop_keys. intros kr Hkr. now apply in_map.
Qed.

Lemma check_types_absent key st :
  In key (keys (schema st)) -> lookup key (raw_input st) = None ->
  exists e, fst (check_types st) = Raises e.
Proof.
  unfold check_types, bind at 1, read. apply check_types_loop_absent.
Qed.

(** ** Messages *)

Lemma append_inv_head (k x y : string) : k ++ x = k ++ y -> x = y.
Proof.
  induction k as [|c k IH]; simpl; [auto|]. intros [= H]. now apply IH.
Qed.

Lemma invalid_type_is_not_constraints key a b :
  INVALID_TYPE_ERROR key a b <> CONSTRAINTS_ERROR key.
Proof.
  unfold INVALID_TYPE_ERROR, CONSTRAINTS_ERROR.
  intros H%append_inv_head. discriminate H.
Qed.

Lemma snoc_inj (A : Type) (l : list A) (x y : A) :
  (l ++ [x] = l ++ [y])%list -> x = y.
Proof. intros H%app_inv_head. now injection H. Qed.

Lemma snoc_neq (A : Type) (l : list A) (x : A) : l <> (l ++ [x])%list.
Proof.
  intros H. apply (f_equal (@List.length A)) in H.
  rewrite length_app in H. simpl in H. lia.
Qed.

Lemma field_typed_checked raw key e :
  field_typed raw key e = true ->
  field_checked raw key e = true /\ contains key raw = true.
Proof.
  unfold field_typed, field_checked, contains.
  destruct e as [r|]; [|discriminate].
  destruct (r_type r) as [[t|]|]; try discriminate.
  destruct (lookup key raw) as [v|]; [|discriminate].
  intros [-> ->]%andb_prop. now split.
Qed.

Lemma rest_keeps_schema :
  frame schema_kept (resolve_defaults ;; check_types ;; aggregate).
Proof.
  apply frame_bind; eauto with kept.
  - apply frame_resolve_defaults; eauto with kept.
  - intros _. apply frame_bind; eauto with kept.
    + apply frame_check_types; eauto with kept.
    + intros _. apply frame_aggregate; eauto with kept.
Qed.

(** ** Properties of validate *)

(** C1.  The claim says that no failure is raised as an exception.  On the
    code a schema key that the input lacks always ends the call in an
    exception (the fourth loop reads [raw_input[key]] for every schema
    key), whatever the rule says: required or optional, with or without a
    default. *)
Theorem validate_raises_on_absent_key jl raw sch key :
  In key (keys sch) -> contains key raw = false ->
  exists e, fst (validate jl raw sch) = Raises e.
Proof.
  intros Hin Habs. unfold validate, validate_body.
  set (st0 := enter raw sch).
  destruct (check_unexpected_returns st0) as (st1 & E1 & Hs1 & Hr1).
  rewrite (bind_returns _ E1).
  pose proof (normalize_schema_keys jl st1) as Hk2.
  pose proof (@frame_normalize_schema raw_kept raw_kept_refl raw_kept_trans
                raw_kept_add_error jl raw_kept_set_schema st1) as Hr2.
  destruct (normalize_schema jl st1) as [[[]|e2] st2] eqn:E2;
    [|exists e2; now rewrite (bind_raises _ E2)].
  rewrite (bind_returns _ E2).
  pose proof (@frame_resolve_defaults schema_kept schema_kept_refl
                schema_kept_trans schema_kept_add_error
                schema_kept_set_validated st2) as Hs3.
  pose proof (@frame_resolve_defaults raw_kept raw_kept_refl
                raw_kept_trans raw_kept_add_error
                raw_kept_set_validated st2) as Hr3.
  destruct (resolve_defaults st2) as [[[]|e3] st3] eqn:E3;
    [|exists e3; now rewrite (bind_raises _ E3)].
  rewrite (bind_returns _ E3).
  simpl in Hk2, Hr2, Hs3, Hr3. unfold schema_kept, raw_kept in *.
  destruct (check_types_absent key st3) as [e He].
  - rewrite Hs3, Hk2, Hs1. exact Hin.
  - rewrite Hr3, Hr2, Hr1. simpl.
    unfold contains in Habs. now destruct (lookup key raw).
  - destruct (check_types st3) as [[[]|e4] st4] eqn:E4; simpl in He;
      [discriminate|].
    exists e4. now rewrite (bind_raises _ E4).
Qed.

Lemma validate_raises_on_absent_key_witness :
  In "age" (keys age_optional) /\
  contains "age" (@nil (string * value)) = false /\
  exists e, fst (validate json_loads_sample [] age_optional) = Raises e.
Proof.
  split; [simpl; now left|]. split; [reflexivity|].
  apply (validate_raises_on_absent_key json_loads_sample [] age_optional "age");
    [simpl; now left|reflexivity].
Defined.

(** A rule without a ['type'] key is reported and then raises all the same:
    the fourth loop reads [rules['type']]. *)
Lemma missing_type_raises jl :
  validate jl [("age", VInt 5)]
    [("age", Rules (mkRules None (Some (VBool true)) None None))]
  = (Raises (KeyError "type"),
     mkStore [("age", VInt 5)]
       [("age", Rules (mkRules None (Some (VBool true)) None None))]
       ["Schema error, missing type for age."]
       [("age", VInt 5)]).
Proof. reflexivity. Qed.

(** C2.  The claim says that an absent optional field comes back with its
    default.  On the code, scenario 2 of the specification writes the
    default into [validated_input] and then raises [KeyError]: the fourth
    loop reads [raw_input["age"]]. *)
Theorem default_lost_to_KeyError jl :
  validate jl [] age_optional
  = (Raises (KeyError "age"),
     mkStore [] age_optional [] [("age", VInt 18)]).
Proof. reflexivity. Qed.

(** C3.  The claim says that an integer supplied for a Float field is
    returned as a float.  On the code, scenario 4 of the specification
    writes [5.0] into [validated_input], then type-checks the integer of
    [raw_input] against [float] and returns the message instead. *)
Theorem int_for_float_rejected jl :
  validate jl [("score", VInt 5)] score_required
  = (Returns
       (Errors ["score should be <class 'float'> type, not <class 'int'>."]),
     mkStore [("score", VInt 5)] score_required
       ["score should be <class 'float'> type, not <class 'int'>."]
       [("score", VFloat float_5)]).
Proof. reflexivity. Qed.

(** No call returns a validated input when an integer is supplied for a
    Float field. *)
Lemma int_for_float_never_validated jl raw sch key r z vi :
  In (key, Rules r) sch -> r_type r = Some (TypeObj TFloat) ->
  lookup key raw = Some (VInt z) ->
  fst (validate jl raw sch) <> Returns (ValidatedInput vi).
Proof.
  intros Hin Ht Hl Hok. apply validate_success_inv in Hok.
  unfold accepts in Hok. apply andb_prop in Hok as [_ Hok].
  rewrite forallb_forall in Hok. specialize (Hok _ Hin). simpl in Hok.
  now rewrite Ht, Hl in Hok.
Qed.

(** C4.  The claim says that a required field that is absent and has no
    default yields both messages.  On the code, scenario 3 of the
    specification collects the missing-required message only (the branch
    for the missing default repeats the test of the branch before it and is
    never taken), and the call then raises [KeyError]. *)
Theorem required_absent_one_message jl :
  validate jl [] age_required
  = (Raises (KeyError "age"),
     mkStore [] age_required ["age is a required input."] []).
Proof. reflexivity. Qed.

(** The third loop on its own: a required field that the input lacks gets
    the missing-required message and nothing else, default or not. *)
Lemma resolve_required_absent key r t req st :
  r_type r = Some t -> r_required r = Some req -> truthy req = true ->
  lookup key (raw_input st) = None ->
  resolve_field key (Rules r) st
  = (Returns tt,
     mkStore (raw_input st) (schema st)
       (error_list st ++ [MISSING_REQUIRED_ERROR key])%list
       (validated_input st)).
Proof. intros Ht Hr Hreq Hl. run. crunch. Qed.

(** C5, refuted as stated: in scenario 5 of the specification the rule has
    a type and a required marker, the input supplies the field with a
    string and has no other key, and the constraint rejects it. *)
Lemma typed_input_rejected_by_constraint :
  ~ (forall jl raw sch,
       (forall key e, In (key, e) sch ->
          exists r t req,
            e = Rules r /\ r_type r = Some (TypeObj t) /\
            r_required r = Some req /\
            (truthy req = true ->
             exists v, lookup key raw = Some v /\ isinstance v t = true)) ->
       (forall key, In key (keys raw) -> In key (keys sch)) ->
       exists vi,
         fst (validate jl raw sch) = Returns (ValidatedInput vi) /\
         forall key, In key (keys sch) -> In key (keys vi)).
Proof.
  intros H.
  destruct (H json_loads_sample [("name", VStr EmptyString)] name_nonempty)
    as (vi & Hv & _).
  - intros key e [[= <- <-]|[]]. do 3 eexists.
    split; [reflexivity|]. split; [reflexivity|]. split; [reflexivity|].
    intros _. exists (VStr EmptyString). now split.
  - intros key [<-|[]]. now left.
  - discriminate Hv.
Qed.

(** C5, as the code has it.  When no input key is outside the schema and
    every schema field is a rule dictionary with a class under ['type'] and
    a ['required'] key, is present in the input with a value of that class,
    and has no constraint or one that holds on the value, [validate]
    returns the validated input, equal to the input, with no message, and
    every schema key is in it. *)
Theorem validate_typed_input jl raw sch :
  forallb (fun key => contains key sch) (keys raw) = true ->
  forallb (fun kr => field_typed raw (fst kr) (snd kr) &&
                     has_required (snd kr)) sch = true ->
  fst (validate jl raw sch) = Returns (ValidatedInput raw) /\
  error_list (snd (validate jl raw sch)) = [] /\
  forallb (fun kr => contains (fst kr) raw) sch = true.
Proof.
  intros Hkeys Hfields.
  assert (Hacc : accepts raw sch = true).
  { unfold accepts. rewrite Hkeys. simpl.
    rewrite forallb_forall in *. intros kr Hin.
    apply Hfields, andb_prop in Hin as [Ht ->].
    apply field_typed_checked in Ht as [-> _]. reflexivity. }
  rewrite (validate_accepts jl _ _ Hacc). simpl.
  split; [reflexivity|]. split; [reflexivity|].
  rewrite forallb_forall in *. intros kr Hin.
  apply Hfields, andb_prop in Hin as [Ht _].
  now apply field_typed_checked in Ht.
Qed.

Lemma validate_typed_input_witness :
  fst (validate json_loads_sample [("age", VInt 5); ("name", VStr "Ada")]
         age_and_name)
  = Returns (ValidatedInput [("age", VInt 5); ("name", VStr "Ada")]) /\
  error_list
    (snd (validate json_loads_sample [("age", VInt 5); ("name", VStr "Ada")]
            age_and_name)) = [] /\
  forallb (fun kr => contains (fst kr) [("age", VInt 5); ("name", VStr "Ada")])
    age_and_name = true.
Proof.
  apply (validate_typed_input json_loads_sample
           [("age", VInt 5); ("name", VStr "Ada")] age_and_name);
    reflexivity.
Defined.

(** C6.  The claim says that every call returns one of the two variants,
    chosen by the collected list.  On the code a call can end with either
    kind of list and return neither.  With the input [{"city": "Oslo"}]
    and a required [age] the list holds two messages when the fourth loop
    raises [KeyError] on [raw_input["age"]], and no error list is
    returned.  With the empty input and an optional [score] that has a
    default the list is empty, the default is in the working copy, and
    the same loop raises [KeyError] on [raw_input["score"]]: no validated
    input is returned. *)
Theorem neither_variant_returned jl :
  validate jl [("city", VStr "Oslo")] age_required
  = (Raises (KeyError "age"),
     mkStore [("city", VStr "Oslo")] age_required
       ["Unexpected input. city is not a valid input option.";
        "age is a required input."]
       [("city", VStr "Oslo")]) /\
  validate jl [] score_optional
  = (Raises (KeyError "score"),
     mkStore [] score_optional [] [("score", VFloat float_5)]).
Proof. split; reflexivity. Qed.

(** The last lines on their own do what the claim says: a call that
    returns, returns a dictionary with one key.  When the collected list
    is not empty it is ["errors"] with that list, and there is no
    ["validated_input"]; when the list is empty it is ["validated_input"]
    with the working copy, and there is no ["errors"]. *)
Lemma validate_one_variant jl raw sch res st' :
  validate jl raw sch = (Returns res, st') ->
  (error_list st' <> [] /\ res = Errors (error_list st') /\
   lookup "validated_input" res = None) \/
  (error_list st' = [] /\ res = ValidatedInput (validated_input st') /\
   lookup "errors" res = None).
Proof.
  unfold validate, validate_body. intros E.
  apply bind_inv in E as ([] & st1 & _ & E).
  apply bind_inv in E as ([] & st2 & _ & E).
  apply bind_inv in E as ([] & st3 & _ & E).
  apply bind_inv in E as ([] & st4 & _ & E).
  apply aggregate_inv in E as [-> [[Herr ->]|[Herr ->]]].
  - right. now repeat split.
  - left. now repeat split.
Qed.

Lemma validate_one_variant_witness :
  validate json_loads_sample [("age", VInt 5); ("name", VStr EmptyString)]
    age_and_name
  = (Returns (Errors ["name does not meet the constraints."]),
     mkStore [("age", VInt 5); ("name", VStr EmptyString)] age_and_name
       ["name does not meet the constraints."]
       [("age", VInt 5); ("name", VStr EmptyString)]) /\
  (["name does not meet the constraints."] <> [] /\
   Errors ["name does not meet the constraints."]
   = Errors ["name does not meet the constraints."] /\
   lookup "validated_input" (Errors ["name does not meet the constraints."])
   = None \/
   ["name does not meet the constraints."] = [] /\
   Errors ["name does not meet the constraints."]
   = ValidatedInput [("age", VInt 5); ("name", VStr EmptyString)] /\
   lookup "errors" (Errors ["name does not meet the constraints."]) = None).
Proof.
  split; [reflexivity|].
  exact (validate_one_variant json_loads_sample
           [("age", VInt 5); ("name", VStr EmptyString)] age_and_name
           (Errors ["name does not meet the constraints."])
           (mkStore [("age", VInt 5); ("name", VStr EmptyString)] age_and_name
              ["name does not meet the constraints."]
              [("age", VInt 5); ("name", VStr EmptyString)])
           eq_refl).
Defined.

(** C7, refuted as stated: a [None] supplied for a field whose constraint
    is [lambda v: v is not None] produces the constraint message. *)
Lemma null_value_constraint_message :
  ~ (forall jl raw sch key errs,
       lookup key raw = Some VNone ->
       fst (validate jl raw sch) = Returns (Errors errs) ->
       ~ In (CONSTRAINTS_ERROR key) errs /\
       forall a b, ~ In (INVALID_TYPE_ERROR key a b) errs).
Proof.
  intros H.
  destruct (H json_loads_sample [("name", VNone)] name_not_None "name"
              ["name does not meet the constraints."] eq_refl eq_refl)
    as [Hc _].
  apply Hc. now left.
Qed.

(** C7, as the code has it.  For a field whose supplied value is [None] the
    body of the fourth loop adds no invalid-type message: it adds nothing,
    or the constraint message alone.  The constraint is not skipped: a rule
    whose constraint returns a false object on [None] gets its constraint
    message. *)
Theorem null_value_check (key : string) (rules : entry) (st : store) :
  lookup key (raw_input st) = Some VNone ->
  let st' := snd (check_field key rules st) in
  (error_list st' = error_list st \/
   error_list st' = (error_list st ++ [CONSTRAINTS_ERROR key])%list) /\
  (forall a b,
     error_list st' <> (error_list st ++ [INVALID_TYPE_ERROR key a b])%list) /\
  (forall r t c b,
     rules = Rules r -> r_type r = Some (TypeObj t) ->
     r_constraints r = Some c -> c VNone = Returns b -> truthy b = false ->
     check_field key rules st
     = (Returns tt,
        mkStore (raw_input st) (schema st)
          (error_list st ++ [CONSTRAINTS_ERROR key])%list
          (validated_input st))).
Proof.
  intros Hnull.
  assert (H12 :
    error_list (snd (check_field key rules st)) = error_list st \/
    error_list (snd (check_field key rules st))
    = (error_list st ++ [CONSTRAINTS_ERROR key])%list).
  { run. crunch; auto. }
  split; [exact H12|]. split.
  - intros a b Hbad. destruct H12 as [H|H]; rewrite H in Hbad.
    + now apply snoc_neq in Hbad.
    + apply snoc_inj in Hbad. symmetry in Hbad.
      now apply invalid_type_is_not_constraints in Hbad.
  - intros r t c b -> Ht Hc Hb Hfalse. run. rewrite Ht, Hc. 
    destruct t; crunch.
Qed.

Lemma null_value_check_witness :
  lookup "name" (raw_input (enter [("name", VNone)] name_not_None))
  = Some VNone /\
  check_field "name" (rule TStr true None (Some is_not_None))
    (enter [("name", VNone)] name_not_None)
  = (Returns tt,
     mkStore [("name", VNone)] name_not_None
       ["name does not meet the constraints."] [("name", VNone)]).
Proof.
  split; [reflexivity|].
  exact (proj2 (proj2 (null_value_check "name"
                         (rule TStr true None (Some is_not_None))
                         (enter [("name", VNone)] name_not_None) eq_refl))
           _ TStr is_not_None (VBool false)
           eq_refl eq_refl eq_refl eq_refl eq_refl).
Defined.

(** C8.  The claim says that the constraint receives the value after
    coercion.  On the code it receives [raw_input[key]]: for a Float field
    supplied the integer 5 the working copy holds [5.0], on which
    [lambda v: isinstance(v, float)] holds, and the call reports that the
    constraint is not met. *)
Theorem constraint_reads_raw_input jl :
  validate jl [("score", VInt 5)] score_is_float
  = (Returns
       (Errors ["score should be <class 'float'> type, not <class 'int'>.";
                "score does not meet the constraints."]),
     mkStore [("score", VInt 5)] score_is_float
       ["score should be <class 'float'> type, not <class 'int'>.";
        "score does not meet the constraints."]
       [("score", VFloat float_5)]) /\
  is_a_float (VFloat float_5) = Returns (VBool true) /\
  is_a_float (VInt 5) = Returns (VBool false).
Proof. repeat split. Qed.

(** C9.  Idempotence: when a call returns a validated input, the call on
    that validated input and the schema as the first call left it returns
    the same validated input, with no message; the first call has left the
    schema as it was. *)
Theorem validate_idempotent jl raw sch vi :
  fst (validate jl raw sch) = Returns (ValidatedInput vi) ->
  fst (validate jl vi (schema (snd (validate jl raw sch))))
  = Returns (ValidatedInput vi) /\
  error_list (snd (validate jl vi (schema (snd (validate jl raw sch))))) = [] /\
  schema (snd (validate jl raw sch)) = sch.
Proof.
  intros H. pose proof (validate_success_inv _ _ _ _ H) as Hacc.
  rewrite (validate_accepts jl _ _ Hacc) in *. simpl in *.
  injection H as <-.
  rewrite (validate_accepts jl _ _ Hacc). now repeat split.
Qed.

Lemma validate_idempotent_witness :
  fst (validate json_loads_sample [("age", VInt 5)] age_required)
  = Returns (ValidatedInput [("age", VInt 5)]) /\
  fst (validate json_loads_sample [("age", VInt 5)]
         (schema (snd (validate json_loads_sample [("age", VInt 5)]
                         age_required))))
  = Returns (ValidatedInput [("age", VInt 5)]).
Proof.
  split; [reflexivity|].
  exact (proj1 (validate_idempotent json_loads_sample [("age", VInt 5)]
                  age_required [("age", VInt 5)] eq_refl)).
Defined.

(** C10, refuted as stated: with a number in the entry before it, a text
    entry that [json.loads] decodes is still text after the call.
    [json.loads] raises [TypeError] on the number, the loop catches
    [JSONDecodeError] only, and the call ends there. *)
Lemma text_after_number_not_parsed :
  ~ (forall jl raw sch key s v,
       distinct (keys sch) = true ->
       lookup key sch = Some (Plain (VStr s)) -> jl s = Returns v ->
       lookup key (schema (snd (validate jl raw sch))) = Some (Plain v) /\
       raw_input (snd (validate jl raw sch)) = raw).
Proof.
  intros H.
  destruct (H json_loads_sample [] number_then_text "b" "{}" (VDict [])
              eq_refl eq_refl eq_refl) as [Hb _].
  discriminate Hb.
Qed.

(** The same with text before it on which [json.loads] raises an
    exception other than [JSONDecodeError]. *)
Lemma text_after_long_integer_not_parsed :
  validate json_loads_sample [] long_integer_then_text
  = (Raises ValueError, mkStore [] long_integer_then_text [] []).
Proof. vm_compute. reflexivity. Qed.

(** C10, as the code has it.  [validate] writes into the caller's schema:
    a text entry that [json.loads] decodes is replaced by the decoded
    value, provided the second loop goes on after every entry before it:
    each is a dictionary, or text on which [json.loads] returns or raises
    [JSONDecodeError].  The entries after it may be anything, and the
    replacement stays when the call later raises.  The caller's
    [raw_input] is as it was. *)
Theorem normalize_in_place jl raw pre key s v post :
  distinct (keys (pre ++ (key, Plain (VStr s)) :: post)%list) = true ->
  forallb (fun kr => loop_goes_on jl (snd kr)) pre = true ->
  jl s = Returns v ->
  lookup key
    (schema (snd (validate jl raw (pre ++ (key, Plain (VStr s)) :: post)%list)))
  = Some (Plain v) /\
  raw_input (snd (validate jl raw (pre ++ (key, Plain (VStr s)) :: post)%list))
  = raw.
Proof.
  intros Hd Hpre Hs. split; [|apply validate_raw_input].
  unfold validate, validate_body.
  set (sch := (pre ++ (key, Plain (VStr s)) :: post)%list) in *.
  set (st0 := enter raw sch).
  destruct (check_unexpected_returns st0) as (st1 & E1 & Hs1 & _).
  rewrite (bind_returns _ E1).
  assert (Hw : lookup key (schema (snd (normalize_schema jl st1)))
               = Some (Plain v)).
  { apply (normalize_schema_writes jl pre key s v post); auto.
    now rewrite Hs1. }
  destruct (normalize_schema jl st1) as [[[]|e2] st2] eqn:E2; simpl in Hw.
  - rewrite (bind_returns _ E2).
    pose proof (rest_keeps_schema st2) as G. unfold schema_kept in G.
    now rewrite G.
  - now rewrite (bind_raises _ E2).
Qed.

Lemma normalize_in_place_witness :
  lookup "b"
    (schema (snd (validate json_loads_sample [("age", VInt 5)]
                    rule_text_number)))
  = Some (Plain (VDict [])) /\
  raw_input (snd (validate json_loads_sample [("age", VInt 5)]
                    rule_text_number))
  = [("age", VInt 5)].
Proof.
  exact (normalize_in_place json_loads_sample [("age", VInt 5)]
           [("age", rule TInt true None None)] "b" "{}" (VDict [])
           [("c", Plain (VInt 5))] eq_refl eq_refl eq_refl).
Defined.

(** ** A field that stops the fourth loop *)

Ltac run_more :=
  unfold field_runs, coercion_runs, constraint_runs, field_messages,
    marker_messages, add_errors in *; run.

Lemma check_field_stops (key : string) (e : entry) (st : store) :
  field_runs (raw_input st) key e = false ->
  exists ex, fst (check_field key e st) = Raises ex.
Proof.
  intros H. run_more. unfold float_ in *.
  crunch; eexists; reflexivity.
Qed.

Lemma check_types_loop_stops (key : string) (e : entry) xs st :
  In (key, e) xs -> field_runs (raw_input st) key e = false ->
  exists ex,
    fst (for_each xs (fun kr => check_field (fst kr) (snd kr)) st)
    = Raises ex.
Proof.
  revert st. induction xs as [|[k r] rest IH]; intros st Hin Hf.
  - destruct Hin.
  - simpl. unfold bind.
    pose proof (@frame_check_field raw_kept raw_kept_refl raw_kept_trans
                  raw_kept_add_error raw_kept_set_validated k r st) as G.
    destruct (check_field k r st) as [[[]|ex] st1] eqn:E; simpl;
      [|now exists ex].
    destruct Hin as [[= -> ->]|Hin].
    + destruct (check_field_stops key e st Hf) as [ex He].
      rewrite E in He. discriminate.
    + apply IH; [exact Hin|]. simpl in G. unfold raw_kept in G.
      now rewrite G.
Qed.

Lemma field_runs_not_plain raw key e :
  field_runs raw key e = true -> is_plain e = false.
Proof. destruct e; [reflexivity|discriminate]. Qed.

Lemma plain_in (xs : dict entry) :
  existsb (fun kr => is_plain (snd kr)) xs = true ->
  exists key v, In (key, Plain v) xs.
Proof.
  intros H. apply existsb_exists in H as ([key e] & Hin & Hp).
  destruct e as [|v]; [discriminate|]. now exists key, v.
Qed.

(** A call in which some schema field stops the fourth loop raises, in that
    loop or before it. *)
Lemma validate_stops jl raw sch key e :
  In (key, e) sch -> field_runs raw key e = false ->
  exists ex, fst (validate jl raw sch) = Raises ex.
Proof.
  intros Hin Hf. unfold validate, validate_body.
  set (st0 := enter raw sch).
  destruct (check_unexpected_returns st0) as (st1 & E1 & Hs1 & Hr1).
  rewrite (bind_returns _ E1).
  pose proof (normalize_loop_schema jl (schema st1) st1) as Hn.
  pose proof (@frame_normalize_schema raw_kept raw_kept_refl raw_kept_trans
                raw_kept_add_error jl raw_kept_set_schema st1) as Hr2.
  assert (En : normalize_schema jl st1
               = for_each (schema st1)
                   (fun kr => normalize_entry jl (fst kr) (snd kr)) st1)
    by reflexivity.
  rewrite <- En in Hn. clear En.
  destruct (normalize_schema jl st1) as [[[]|e2] st2] eqn:E2;
    [|exists e2; now rewrite (bind_raises _ E2)].
  rewrite (bind_returns _ E2).
  pose proof (@frame_resolve_defaults schema_kept schema_kept_refl
                schema_kept_trans schema_kept_add_error
                schema_kept_set_validated st2) as Hs3.
  pose proof (@frame_resolve_defaults raw_kept raw_kept_refl
                raw_kept_trans raw_kept_add_error
                raw_kept_set_validated st2) as Hr3.
  destruct (resolve_defaults st2) as [[[]|e3] st3] eqn:E3;
    [|exists e3; now rewrite (bind_raises _ E3)].
  rewrite (bind_returns _ E3).
  simpl in Hn, Hr2, Hs3, Hr3. unfold schema_kept, raw_kept in *.
  assert (Hraw : raw_input st3 = raw) by (now rewrite Hr3, Hr2, Hr1).
  assert (Hstop : exists ex, fst (check_types st3) = Raises ex).
  { unfold check_types, bind at 1, read.
    destruct Hn as [Hsame|Hplain].
    - apply (check_types_loop_stops key e).
      + simpl. rewrite Hs3, Hsame, Hs1. exact Hin.
      + now rewrite Hraw.
    - apply plain_in in Hplain as (k & v & Hk).
      apply (check_types_loop_stops k (Plain v)).
      + simpl. now rewrite Hs3.
      + reflexivity. }
  destruct Hstop as [ex He].
  destruct (check_types st3) as [[[]|e4] st4] eqn:E4; simpl in He;
    [discriminate|].
  exists e4. now rewrite (bind_raises _ E4).
Qed.

(** ** The loops on a call that goes through *)

Lemma add_errors_nil st : add_errors [] st = st.
Proof. unfold add_errors. rewrite app_nil_r. apply store_eta. Qed.

Lemma add_errors_app l l' st :
  add_errors l' (add_errors l st) = add_errors (l ++ l')%list st.
Proof. unfold add_errors. simpl. now rewrite app_assoc. Qed.

Lemma check_unexpected_loop_exact ks st :
  for_each ks (fun key =>
    sch <- read schema ;;
    when (negb (contains key sch)) (_add_error (UNEXPECTED_INPUT_ERROR key)))
    st
  = (Returns tt,
     add_errors
       (map UNEXPECTED_INPUT_ERROR
          (filter (fun key => negb (contains key (schema st))) ks)) st).
Proof.
  revert st. induction ks as [|k rest IH]; intros st; simpl.
  - now rewrite add_errors_nil.
  - unfold bind at 1. unfold bind at 1, read, when, _add_error.
    destruct (negb (contains k (schema st))); simpl.
    + rewrite IH. unfold add_errors. simpl. now rewrite <- app_assoc.
    + apply IH.
Qed.

Lemma check_unexpected_exact st :
  check_unexpected st
  = (Returns tt,
     add_errors (unexpected_messages (raw_input st) (schema st)) st).
Proof.
  unfold check_unexpected, bind at 1, read. apply check_unexpected_loop_exact.
Qed.

Lemma resolve_field_runs key e st :
  field_runs (raw_input st) key e = true ->
  resolve_field key e st
  = (Returns tt, add_errors (marker_messages key e) st).
Proof.
  intros H. run_more. crunch; rewrite ?app_nil_r, ?store_eta; reflexivity.
Qed.

Lemma resolve_loop_runs xs st :
  forallb (fun kr => field_runs (raw_input st) (fst kr) (snd kr)) xs = true ->
  for_each xs (fun kr => resolve_field (fst kr) (snd kr)) st
  = (Returns tt,
     add_errors (flat_map (fun kr => marker_messages (fst kr) (snd kr)) xs)
       st).
Proof.
  revert st. induction xs as [|[k e] rest IH]; intros st H; simpl.
  - now rewrite add_errors_nil.
  - simpl in H. apply andb_prop in H as [Hf Hrest].
    unfold bind. rewrite (resolve_field_runs _ _ _ Hf).
    rewrite IH by exact Hrest. now rewrite add_errors_app.
Qed.

Lemma check_field_runs key e st :
  field_runs (raw_input st) key e = true ->
  exists vi,
    check_field key e st
    = (Returns tt,
       mkStore (raw_input st) (schema st)
         (error_list st ++ field_messages (raw_input st) key e)%list vi).
Proof.
  destruct st as [raw sch errs vi0]. simpl. intros H.
  run_more. unfold float_ in *.
  crunch; rewrite ?app_nil_r, <- ?app_assoc; eexists; reflexivity.
Qed.

Lemma check_types_loop_runs xs st :
  forallb (fun kr => field_runs (raw_input st) (fst kr) (snd kr)) xs = true ->
  exists vi,
    for_each xs (fun kr => check_field (fst kr) (snd kr)) st
    = (Returns tt,
       mkStore (raw_input st) (schema st)
         (error_list st ++
          flat_map (fun kr => field_messages (raw_input st) (fst kr) (snd kr))
            xs)%list vi).
Proof.
  revert st. induction xs as [|[k e] rest IH]; intros st H; simpl.
  - exists (validated_input st). now rewrite app_nil_r, store_eta.
  - simpl in H. apply andb_prop in H as [Hf Hrest].
    destruct (check_field_runs _ _ _ Hf) as [vi1 E1].
    unfold bind. rewrite E1.
    destruct (IH (mkStore (raw_input st) (schema st)
                    (error_list st ++ field_messages (raw_input st) k e)%list
                    vi1) Hrest) as [vi E].
    exists vi. rewrite E. simpl. now rewrite <- app_assoc.
Qed.

Lemma runs_not_plain raw xs :
  forallb (fun kr => field_runs raw (fst kr) (snd kr)) xs = true ->
  forallb (fun kr : string * entry => negb (is_plain (snd kr))) xs = true.
Proof.
  intros H. rewrite forallb_forall in *. intros kr Hin.
  now rewrite (field_runs_not_plain _ _ _ (H kr Hin)).
Qed.

(** A call that goes through leaves the messages of the three loops, in
    this order, and the caller's objects as they were. *)
Lemma validate_runs_store jl raw sch :
  runs raw sch = true ->
  exists vi,
    validate jl raw sch
    = (Returns
         match messages raw sch with
         | [] => ValidatedInput vi
         | _ :: _ => Errors (messages raw sch)
         end,
       mkStore raw sch (messages raw sch) vi).
Proof.
  intros H. unfold runs in H. unfold validate, validate_body.
  set (st0 := enter raw sch).
  rewrite (bind_returns _ (check_unexpected_exact st0)).
  set (st1 := add_errors (unexpected_messages (raw_input st0) (schema st0))
                st0).
  assert (E2 : normalize_schema jl st1 = (Returns tt, st1)).
  { unfold normalize_schema, bind at 1, read.
    apply normalize_loop_rules. simpl. now apply (runs_not_plain raw). }
  rewrite (bind_returns _ E2).
  assert (E3 : resolve_defaults st1
               = (Returns tt,
                  add_errors
                    (flat_map (fun kr => marker_messages (fst kr) (snd kr))
                       sch) st1)).
  { unfold resolve_defaults, bind at 1, read.
    now apply resolve_loop_runs. }
  rewrite (bind_returns _ E3).
  set (st3 := add_errors _ st1).
  destruct (check_types_loop_runs sch st3 H) as [vi E4].
  assert (E4' : check_types st3
                = (Returns tt,
                   mkStore raw sch (messages raw sch) vi)).
  { unfold check_types, bind at 1, read. simpl. rewrite E4.
    unfold messages. simpl. now rewrite <- !app_assoc. }
  rewrite (bind_returns _ E4').
  exists vi. unfold aggregate, bind, read, ret. simpl.
  now destruct (messages raw sch).
Qed.

Lemma map_filter_nil (A B : Type) (f : A -> B) (p : A -> bool) (l : list A) :
  map f (filter p l) = [] -> forallb (fun x => negb (p x)) l = true.
Proof.
  induction l as [|x rest IH]; simpl; [reflexivity|].
  destruct (p x); simpl; [discriminate|exact IH].
Qed.

Lemma flat_map_nil (A B : Type) (f : A -> list B) (l : list A) :
  flat_map f l = [] -> forall x, In x l -> f x = [].
Proof.
  induction l as [|y rest IH]; simpl; [tauto|].
  intros [H1 H2]%app_eq_nil x [->|Hin]; [exact H1|now apply IH].
Qed.

Lemma no_messages_accepts raw sch :
  runs raw sch = true -> messages raw sch = [] -> accepts raw sch = true.
Proof.
  unfold runs, messages, accepts. intros Hruns Hm.
  apply app_eq_nil in Hm as [Hu Hm]. apply app_eq_nil in Hm as [Hk Hf].
  apply andb_true_intro. split.
  - apply map_filter_nil in Hu. rewrite forallb_forall in *.
    intros key Hin. specialize (Hu key Hin).
    now apply negb_true_iff, negb_false_iff in Hu.
  - rewrite forallb_forall in *. intros [key e] Hin.
    specialize (Hruns _ Hin).
    pose proof (flat_map_nil _ _ _ _ Hk _ Hin) as Hk1.
    pose proof (flat_map_nil _ _ _ _ Hf _ Hin) as Hf1.
    simpl in *. unfold marker_messages in Hk1.
    destruct (has_required e); [|discriminate]. rewrite andb_true_r.
    unfold field_runs, field_messages, field_checked in *.
    destruct e as [r|]; [|discriminate].
    destruct (r_type r) as [[t|]|]; try discriminate.
    destruct (lookup key raw) as [v|]; [|discriminate].
    apply app_eq_nil in Hf1 as [Ht Hc].
    destruct (constraint_holds r v); [|discriminate]. rewrite andb_true_r.
    destruct (isinstance v t); [reflexivity|].
    destruct (is_None v); [reflexivity|discriminate].
Qed.

Lemma validate_runs_result jl raw sch :
  runs raw sch = true ->
  fst (validate jl raw sch)
  = Returns
      match messages raw sch with
      | [] => ValidatedInput raw
      | _ :: _ => Errors (messages raw sch)
      end.
Proof.
  intros H. destruct (messages raw sch) as [|m l] eqn:Em.
  - now rewrite (validate_accepts jl _ _ (no_messages_accepts _ _ H Em)).
  - destruct (validate_runs_store jl raw sch H) as [vi ->]. simpl.
    now rewrite Em.
Qed.

Lemma validate_returns_runs jl raw sch res :
  fst (validate jl raw sch) = Returns res -> runs raw sch = true.
Proof.
  intros H. unfold runs.
  destruct (forallb _ sch) eqn:E; [reflexivity|exfalso].
  assert (Hex : existsb (fun kr => negb (field_runs raw (fst kr) (snd kr)))
                  sch = true).
  { clear H. induction sch as [|kr rest IH]; simpl in *; [discriminate|].
    destruct (field_runs raw (fst kr) (snd kr)); simpl in *;
      [auto|reflexivity]. }
  apply existsb_exists in Hex as ([key e] & Hin & Hf). simpl in Hf.
  apply negb_true_iff in Hf.
  destruct (validate_stops jl raw sch key e Hin Hf) as [ex Hex].
  congruence.
Qed.

Lemma validate_reports jl raw sch res m :
  fst (validate jl raw sch) = Returns res -> In m (messages raw sch) ->
  res = Errors (messages raw sch).
Proof.
  intros H Hin. pose proof (validate_returns_runs _ _ _ _ H) as Hruns.
  rewrite (validate_runs_result jl _ _ Hruns) in H.
  destruct (messages raw sch); [destruct Hin|]. now injection H.
Qed.

Lemma returning_field jl raw sch res key e :
  fst (validate jl raw sch) = Returns res -> In (key, e) sch ->
  field_runs raw key e = true.
Proof.
  intros H Hin. apply validate_returns_runs in H. unfold runs in H.
  rewrite forallb_forall in H. exact (H _ Hin).
Qed.

Lemma field_message_in raw sch key e m :
  In (key, e) sch -> In m (field_messages raw key e) ->
  In m (messages raw sch).
Proof.
  intros Hin Hm. unfold messages. apply in_or_app. right.
  apply in_or_app. right. apply in_flat_map. now exists (key, e).
Qed.

Lemma contains_without_defaults key sch :
  contains key (without_defaults sch) = contains key sch.
Proof.
  unfold contains, without_defaults.
  induction sch as [|[k e] rest IH]; simpl; [reflexivity|].
  destruct (String.eqb key k); [reflexivity|exact IH].
Qed.

Lemma runs_without_defaults raw sch :
  runs raw (without_defaults sch) = runs raw sch.
Proof.
  unfold runs, without_defaults.
  induction sch as [|[k e] rest IH]; simpl; [reflexivity|].
  rewrite IH. f_equal. now destruct e.
Qed.

Lemma messages_without_defaults raw sch :
  messages raw (without_defaults sch) = messages raw sch.
Proof.
  unfold messages. f_equal; [|f_equal].
  - unfold unexpected_messages. f_equal. apply filter_ext.
    intros key. now rewrite contains_without_defaults.
  - unfold without_defaults.
    induction sch as [|[k e] rest IH]; simpl; [reflexivity|].
    rewrite IH. f_equal. now destruct e.
  - unfold without_defaults.
    induction sch as [|[k e] rest IH]; simpl; [reflexivity|].
    rewrite IH. f_equal. now destruct e.
Qed.

Lemma normalize_loop_dicts jl xs st :
  forallb (fun kr => isinstance_dict (snd kr)) xs = true ->
  for_each xs (fun kr => normalize_entry jl (fst kr) (snd kr)) st
  = (Returns tt, st).
Proof.
  intros H. apply for_each_fixed. intros [k e] Hin.
  rewrite forallb_forall in H. specialize (H _ Hin). simpl in *.
  unfold normalize_entry. now rewrite H.
Qed.

Lemma snd_bind (A B : Type) (m : M A) (f : A -> M B) st :
  snd (bind m f st)
  = match m st with
    | (Returns a, st1) => snd (f a st1)
    | (Raises _, st1) => st1
    end.
Proof. unfold bind. now destruct (m st) as [[a|e] st1]. Qed.

(** ** Further properties of validate *)

(** X1.  [validate] returns, rather than raises, exactly when every schema
    entry is a rule dictionary with a class under ['type'] whose key is in
    the input, and neither the float conversion nor the constraint of the
    entry raises on the supplied value. *)
Theorem validate_returns_iff jl raw sch :
  (exists res, fst (validate jl raw sch) = Returns res) <->
  runs raw sch = true.
Proof.
  split.
  - intros [res H]. exact (validate_returns_runs _ _ _ _ H).
  - intros H. eexists. exact (validate_runs_result jl _ _ H).
Qed.

(** X2.  What a call that goes through returns and leaves: its messages
    are those for the input keys outside the schema in input order, then
    those for the rules without a ['required'] key in schema order, then,
    field by field in schema order, the type message followed by the
    constraint message.  With no message the result is the input itself
    under ["validated_input"], otherwise the messages under ["errors"];
    the collected list is that list and the caller's two objects are as
    they were. *)
Theorem validate_result jl raw sch :
  runs raw sch = true ->
  fst (validate jl raw sch)
  = Returns
      match messages raw sch with
      | [] => ValidatedInput raw
      | _ :: _ => Errors (messages raw sch)
      end /\
  error_list (snd (validate jl raw sch)) = messages raw sch /\
  raw_input (snd (validate jl raw sch)) = raw /\
  schema (snd (validate jl raw sch)) = sch.
Proof.
  intros H. split; [exact (validate_runs_result jl _ _ H)|].
  destruct (validate_runs_store jl raw sch H) as [vi ->]. now repeat split.
Qed.

Lemma validate_result_witness :
  fst (validate json_loads_sample
         [("age", VStr "five"); ("city", VStr "Oslo");
          ("name", VStr EmptyString)]
         age_and_name)
  = Returns
      (Errors ["Unexpected input. city is not a valid input option.";
               "age should be <class 'int'> type, not <class 'str'>.";
               "name does not meet the constraints."]).
Proof.
  exact (proj1 (validate_result json_loads_sample
                  [("age", VStr "five"); ("city", VStr "Oslo");
                   ("name", VStr EmptyString)]
                  age_and_name eq_refl)).
Defined.

(** X3.  A call returns a validated input exactly on an accepted input (no
    key outside the schema; every entry a rule dictionary with a class
    under ['type'] and a ['required'] key, its key in the input with a
    value that is an instance of the class or [None] and on which the
    constraint holds), and the mapping returned is then the input itself:
    no default and no converted value is in it. *)
Theorem validate_success_iff jl raw sch vi :
  fst (validate jl raw sch) = Returns (ValidatedInput vi) <->
  accepts raw sch = true /\ vi = raw.
Proof.
  split.
  - intros H. pose proof (validate_success_inv _ _ _ _ H) as Hacc.
    split; [exact Hacc|].
    rewrite (validate_accepts jl _ _ Hacc) in H. simpl in H.
    now injection H.
  - intros [Hacc ->]. now rewrite (validate_accepts jl _ _ Hacc).
Qed.

(** X4.  An input key that is not in the schema is reported: a call that
    returns, returns the error list, with the unexpected-input message for
    that key in it. *)
Theorem unexpected_key_reported jl raw sch key res :
  In key (keys raw) -> contains key sch = false ->
  fst (validate jl raw sch) = Returns res ->
  res = Errors (messages raw sch) /\
  In (UNEXPECTED_INPUT_ERROR key) (messages raw sch).
Proof.
  intros Hin Hno H.
  assert (Hm : In (UNEXPECTED_INPUT_ERROR key) (messages raw sch)).
  { unfold messages. apply in_or_app. left. unfold unexpected_messages.
    apply in_map, filter_In. split; [exact Hin|]. now rewrite Hno. }
  split; [exact (validate_reports _ _ _ _ _ H Hm)|exact Hm].
Qed.

Lemma unexpected_key_reported_witness :
  Errors ["Unexpected input. city is not a valid input option."]
  = Errors (messages [("age", VInt 5); ("city", VStr "Oslo")] age_required) /\
  In (UNEXPECTED_INPUT_ERROR "city")
    (messages [("age", VInt 5); ("city", VStr "Oslo")] age_required).
Proof.
  exact (unexpected_key_reported json_loads_sample
           [("age", VInt 5); ("city", VStr "Oslo")] age_required "city"
           (Errors ["Unexpected input. city is not a valid input option."])
           (or_intror (or_introl eq_refl)) eq_refl eq_refl).
Defined.

(** X5.  A value that is neither [None] nor an instance of the class of
    its field is reported: a call that returns, returns the error list,
    with the type message for that field, naming the class of the rule and
    the class of the value. *)
Theorem type_mismatch_reported jl raw sch key r t v res :
  In (key, Rules r) sch -> r_type r = Some (TypeObj t) ->
  lookup key raw = Some v -> isinstance v t = false -> is_None v = false ->
  fst (validate jl raw sch) = Returns res ->
  res = Errors (messages raw sch) /\
  In (INVALID_TYPE_ERROR key (class_repr t) (class_repr (type_of v)))
    (messages raw sch).
Proof.
  intros Hin Ht Hl Hi Hn H.
  assert (Hm : In (INVALID_TYPE_ERROR key (class_repr t)
                     (class_repr (type_of v))) (messages raw sch)).
  { apply (field_message_in raw sch key (Rules r)); [exact Hin|].
    simpl. rewrite Ht, Hl, Hi, Hn. simpl. now left. }
  split; [exact (validate_reports _ _ _ _ _ H Hm)|exact Hm].
Qed.

Lemma type_mismatch_reported_witness :
  Errors ["age should be <class 'int'> type, not <class 'str'>."]
  = Errors (messages [("age", VStr "five")] age_required) /\
  In (INVALID_TYPE_ERROR "age" (class_repr TInt)
        (class_repr (type_of (VStr "five"))))
    (messages [("age", VStr "five")] age_required).
Proof.
  exact (type_mismatch_reported json_loads_sample [("age", VStr "five")]
           age_required "age"
           (mkRules (Some (TypeObj TInt)) (Some (VBool true)) None None)
           TInt (VStr "five")
           (Errors ["age should be <class 'int'> type, not <class 'str'>."])
           (or_introl eq_refl) eq_refl eq_refl eq_refl eq_refl eq_refl).
Defined.

(** X6.  A value on which the constraint of its field returns a false
    object is reported, whether or not its type is right: a call that
    returns, returns the error list, with the constraint message for that
    field. *)
Theorem constraint_failure_reported jl raw sch key r c v b res :
  In (key, Rules r) sch -> r_constraints r = Some c ->
  lookup key raw = Some v -> c v = Returns b -> truthy b = false ->
  fst (validate jl raw sch) = Returns res ->
  res = Errors (messages raw sch) /\
  In (CONSTRAINTS_ERROR key) (messages raw sch).
Proof.
  intros Hin Hc Hl Hb Hf H.
  pose proof (returning_field _ _ _ _ _ _ H Hin) as Hr.
  assert (Hm : In (CONSTRAINTS_ERROR key) (messages raw sch)).
  { apply (field_message_in raw sch key (Rules r)); [exact Hin|].
    unfold field_runs in Hr. unfold field_messages, constraint_holds.
    destruct (r_type r) as [[t|]|]; try discriminate Hr.
    rewrite Hl, Hc, Hb, Hf. apply in_or_app. right. now left. }
  split; [exact (validate_reports _ _ _ _ _ H Hm)|exact Hm].
Qed.

Lemma constraint_failure_reported_witness :
  Errors ["name should be <class 'str'> type, not <class 'list'>.";
          "name does not meet the constraints."]
  = Errors (messages [("name", VList [])] name_nonempty) /\
  In (CONSTRAINTS_ERROR "name") (messages [("name", VList [])] name_nonempty).
Proof.
  exact (constraint_failure_reported json_loads_sample [("name", VList [])]
           name_nonempty "name"
           (mkRules (Some (TypeObj TStr)) (Some (VBool true)) None
              (Some nonempty))
           nonempty (VList []) (VBool false)
           (Errors ["name should be <class 'str'> type, not <class 'list'>.";
                    "name does not meet the constraints."])
           (or_introl eq_refl) eq_refl eq_refl eq_refl eq_refl eq_refl).
Defined.

(** X7.  A rule without a ['required'] key is reported with the message of
    a missing required input, although the field is in the input: a call
    that returns, returns the error list, with that message for the
    field. *)
Theorem missing_marker_reported jl raw sch key r res :
  In (key, Rules r) sch -> r_required r = None ->
  fst (validate jl raw sch) = Returns res ->
  res = Errors (messages raw sch) /\
  In (MISSING_REQUIRED_ERROR key) (messages raw sch) /\
  contains key raw = true.
Proof.
  intros Hin Hr H.
  pose proof (returning_field _ _ _ _ _ _ H Hin) as Hf.
  assert (Hm : In (MISSING_REQUIRED_ERROR key) (messages raw sch)).
  { unfold messages. apply in_or_app. right. apply in_or_app. left.
    apply in_flat_map. exists (key, Rules r). split; [exact Hin|].
    unfold marker_messages. simpl. rewrite Hr. now left. }
  split; [exact (validate_reports _ _ _ _ _ H Hm)|]. split; [exact Hm|].
  unfold field_runs in Hf. unfold contains.
  destruct (r_type r) as [[t|]|]; try discriminate Hf.
  now destruct (lookup key raw).
Qed.

Lemma missing_marker_reported_witness :
  Errors ["age is a required input."]
  = Errors
      (messages [("age", VInt 5)]
         [("age", Rules (mkRules (Some (TypeObj TInt)) None None None))]) /\
  In (MISSING_REQUIRED_ERROR "age")
    (messages [("age", VInt 5)]
       [("age", Rules (mkRules (Some (TypeObj TInt)) None None None))]) /\
  contains "age" [("age", VInt 5)] = true.
Proof.
  exact (missing_marker_reported json_loads_sample [("age", VInt 5)]
           [("age", Rules (mkRules (Some (TypeObj TInt)) None None None))]
           "age" (mkRules (Some (TypeObj TInt)) None None None)
           (Errors ["age is a required input."])
           (or_introl eq_refl) eq_refl eq_refl).
Defined.

(** X8.  A schema entry that is not a rule dictionary with a class under
    ['type'] makes every call raise: a rule without ['type'], a rule whose
    ['type'] is not a class, and every entry that is not a dictionary,
    text that [json.loads] decodes included.  The messages for a missing
    type and for an entry that is not a dictionary are collected and never
    returned. *)
Theorem entry_without_class_raises jl raw sch key e :
  In (key, e) sch -> has_class e = false ->
  exists ex, fst (validate jl raw sch) = Raises ex.
Proof.
  intros Hin Hc. apply (validate_stops jl raw sch key e Hin).
  unfold has_class in Hc. unfold field_runs.
  destruct e as [r|]; [|reflexivity].
  now destruct (r_type r) as [[t|]|].
Qed.

Lemma entry_without_class_raises_witness :
  exists ex,
    fst (validate json_loads_sample [("age", VInt 5); ("b", VInt 1)]
           [("age", rule TInt true None None); ("b", Plain (VStr "{}"))])
    = Raises ex.
Proof.
  exact (entry_without_class_raises json_loads_sample
           [("age", VInt 5); ("b", VInt 1)]
           [("age", rule TInt true None None); ("b", Plain (VStr "{}"))]
           "b" (Plain (VStr "{}"))
           (or_intror (or_introl eq_refl)) eq_refl).
Defined.

(** X9.  An exception raised by a constraint is not caught: when the
    constraint of a schema field raises on the supplied value, the call
    raises. *)
Theorem constraint_exception_propagates jl raw sch key r c v ex :
  In (key, Rules r) sch -> r_constraints r = Some c ->
  lookup key raw = Some v -> c v = Raises ex ->
  exists ex', fst (validate jl raw sch) = Raises ex'.
Proof.
  intros Hin Hc Hl Hex. apply (validate_stops jl raw sch key (Rules r) Hin).
  unfold field_runs, constraint_runs. rewrite Hl, Hc, Hex.
  destruct (r_type r) as [[t|]|]; try reflexivity. apply andb_false_r.
Qed.

Lemma constraint_exception_propagates_witness :
  exists ex',
    fst (validate json_loads_sample [("name", VInt 7)] name_nonempty)
    = Raises ex'.
Proof.
  exact (constraint_exception_propagates json_loads_sample
           [("name", VInt 7)] name_nonempty "name"
           (mkRules (Some (TypeObj TStr)) (Some (VBool true)) None
              (Some nonempty))
           nonempty (VInt 7) TypeError
           (or_introl eq_refl) eq_refl eq_refl eq_refl).
Defined.

(** X10.  An integer too large for a float, supplied for a [float] field,
    makes the call raise: the [OverflowError] of the conversion at line 73
    is not caught. *)
Theorem float_overflow_raises jl raw sch key r z :
  In (key, Rules r) sch -> r_type r = Some (TypeObj TFloat) ->
  lookup key raw = Some (VInt z) -> float_of_int z = Raises OverflowError ->
  exists ex, fst (validate jl raw sch) = Raises ex.
Proof.
  intros Hin Ht Hl Ho. apply (validate_stops jl raw sch key (Rules r) Hin).
  unfold field_runs, coercion_runs. now rewrite Ht, Hl, Ho.
Qed.

Lemma float_overflow_raises_witness :
  exists ex,
    fst (validate json_loads_sample [("score", VInt two_to_1024)]
           score_required)
    = Raises ex.
Proof.
  exact (float_overflow_raises json_loads_sample
           [("score", VInt two_to_1024)] score_required "score"
           (mkRules (Some (TypeObj TFloat)) (Some (VBool true)) None None)
           two_to_1024
           (or_introl eq_refl) eq_refl eq_refl eq_refl).
Defined.

(** X11.  A schema whose entries are all dictionaries is not written to:
    after the call, whether it returned or raised, the caller's schema is
    as it was. *)
Theorem dict_schema_unchanged jl raw sch :
  forallb (fun kr => isinstance_dict (snd kr)) sch = true ->
  schema (snd (validate jl raw sch)) = sch.
Proof.
  intros H. unfold validate, validate_body.
  set (st0 := enter raw sch).
  destruct (check_unexpected_returns st0) as (st1 & E1 & Hs1 & _).
  rewrite (bind_returns _ E1).
  assert (E2 : normalize_schema jl st1 = (Returns tt, st1)).
  { unfold normalize_schema, bind at 1, read.
    apply normalize_loop_dicts. simpl. now rewrite Hs1. }
  rewrite (bind_returns _ E2).
  pose proof (rest_keeps_schema st1) as G. unfold schema_kept in G.
  now rewrite G, Hs1.
Qed.

Lemma dict_schema_unchanged_witness :
  schema (snd (validate json_loads_sample [] age_optional)) = age_optional.
Proof.
  exact (dict_schema_unchanged json_loads_sample [] age_optional eq_refl).
Defined.

(** X12.  The call never adds a key to the caller's schema nor removes
    one: after the call, whether it returned or raised, the schema has the
    keys it had, in the same order. *)
Theorem validate_keeps_schema_keys jl raw sch :
  keys (schema (snd (validate jl raw sch))) = keys sch.
Proof.
  unfold validate, validate_body.
  set (st0 := enter raw sch).
  destruct (check_unexpected_returns st0) as (st1 & E1 & Hs1 & _).
  rewrite (bind_returns _ E1).
  pose proof (normalize_schema_keys jl st1) as Hk.
  rewrite snd_bind.
  destruct (normalize_schema jl st1) as [[[]|e2] st2]; simpl in Hk.
  - pose proof (rest_keeps_schema st2) as G. unfold schema_kept in G.
    now rewrite G, Hk, Hs1.
  - now rewrite Hk, Hs1.
Qed.

(** X13.  No default reaches the caller: the schema with every ['default']
    removed from its rule dictionaries returns on the same inputs, and
    returns the same value. *)
Theorem defaults_never_returned jl raw sch res :
  fst (validate jl raw sch) = Returns res <->
  fst (validate jl raw (without_defaults sch)) = Returns res.
Proof.
  split; intros H.
  - pose proof (validate_returns_runs _ _ _ _ H) as Hr.
    rewrite (validate_runs_result jl _ _ Hr) in H.
    rewrite <- runs_without_defaults in Hr.
    rewrite (validate_runs_result jl _ _ Hr).
    now rewrite messages_without_defaults.
  - pose proof (validate_returns_runs _ _ _ _ H) as Hr.
    rewrite (validate_runs_result jl _ _ Hr) in H.
    rewrite runs_without_defaults in Hr.
    rewrite (validate_runs_result jl _ _ Hr).
    now rewrite messages_without_defaults in H.
Qed.

Lemma normalize_entry_left_alone jl key e st :
  left_alone jl e = true ->
  schema (snd (normalize_entry jl key e st)) = schema st.
Proof. intros H. unfold left_alone in H. run. crunch. Qed.

Lemma lookup_distinct (V : Type) (key : string) (v : V) (d : dict V) :
  distinct (keys d) = true -> In (key, v) d -> lookup key d = Some v.
Proof.
  induction d as [|[k w] rest IH]; simpl; [tauto|].
  intros [Hk Hd]%andb_prop [[= -> ->]|Hin].
  - now rewrite String.eqb_refl.
  - destruct (String.eqb_spec key k) as [->|_]; [|now apply IH].
    apply negb_true_iff in Hk.
    assert (existsb (String.eqb k) (keys rest) = true).
    { apply existsb_exists. exists k. split.
      - apply (in_map fst) in Hin. exact Hin.
      - apply String.eqb_refl. }
    congruence.
Qed.

Lemma normalize_loop_keeps jl key xs st :
  (forall e, In (key, e) xs -> left_alone jl e = true) ->
  lookup key
    (schema
       (snd (for_each xs (fun kr => normalize_entry jl (fst kr) (snd kr))
               st)))
  = lookup key (schema st).
Proof.
  revert st. induction xs as [|[k e] rest IH]; intros st Hall; simpl.
  - reflexivity.
  - assert (Hl : lookup key (schema (snd (normalize_entry jl k e st)))
                 = lookup key (schema st)).
    { destruct (String.eqb_spec key k) as [->|Hne].
      - rewrite normalize_entry_left_alone; [reflexivity|].
        apply Hall. now left.
      - pose proof (normalize_entry_schema jl k e st) as Hh. simpl in Hh.
        destruct Hh as [->|[v ->]]; [reflexivity|].
        now apply lookup_setitem_other. }
    assert (Hrest : forall e', In (key, e') rest -> left_alone jl e' = true).
    { intros e' Hin. apply Hall. now right. }
    unfold bind.
    destruct (normalize_entry jl k e st) as [[[]|ex] st1]; simpl in *.
    + now rewrite IH.
    + exact Hl.
Qed.

(** X14.  The call writes to no schema entry but text that [json.loads]
    decodes: in a schema without a repeated key, an entry that is a
    dictionary, text that is not decoded, or any other object is, after
    the call, whether it returned or raised, the entry it was. *)
Theorem other_entries_left_alone jl raw sch key e :
  distinct (keys sch) = true -> In (key, e) sch -> left_alone jl e = true ->
  lookup key (schema (snd (validate jl raw sch))) = Some e.
Proof.
  intros Hd Hin Hleft.
  rewrite <- (lookup_distinct _ key e sch Hd Hin).
  unfold validate, validate_body.
  set (st0 := enter raw sch).
  destruct (check_unexpected_returns st0) as (st1 & E1 & Hs1 & _).
  rewrite (bind_returns _ E1).
  assert (Hk : lookup key (schema (snd (normalize_schema jl st1)))
               = lookup key sch).
  { unfold normalize_schema, bind at 1, read.
    rewrite normalize_loop_keeps; [now rewrite Hs1|].
    simpl. rewrite Hs1. simpl. intros e' Hin'.
    pose proof (lookup_distinct _ key e' sch Hd Hin') as L1.
    pose proof (lookup_distinct _ key e sch Hd Hin) as L2.
    congruence. }
  rewrite snd_bind.
  destruct (normalize_schema jl st1) as [[[]|e2] st2]; simpl in Hk.
  - pose proof (rest_keeps_schema st2) as G. unfold schema_kept in G.
    now rewrite G.
  - exact Hk.
Qed.

Lemma other_entries_left_alone_witness :
  lookup "c"
    (schema (snd (validate json_loads_sample [("age", VInt 5)]
                    rule_text_number)))
  = Some (Plain (VInt 5)).
Proof.
  exact (other_entries_left_alone json_loads_sample [("age", VInt 5)]
           rule_text_number "c" (Plain (VInt 5)) eq_refl
           (or_intror (or_intror (or_introl eq_refl))) eq_refl).
Defined.
